(** * A reaction-diffusion model for pattern formation

    Shallow embedding of the code cells of the notebook
    [ipython/A reaction-diffusion model for pattern formation.ipynb].

    Numbers: Python floats are idealised as exact rationals [Q]; equality of
    numbers is [Qeq] ([==]).  Division keeps Python's behaviour on a zero
    divisor (it raises [ZeroDivisionError]).
    Sparse matrices: a scipy sparse matrix is its shape together with its
    entry function; the storage formats (DIA, LIL, CSR) hold the same
    entries, so [tolil] and [todia] do not change the model.
    Arrays: a numpy array is a reference to a buffer of a store; [reshape]
    returns a view on the same buffer. *)

From Stdlib Require Import QArith Qround Qpower ZArith List Lia Bool Arith String.
From Stdlib Require Import Permutation Setoid Morphisms Lqa.
From stdpp Require Import base gmap strings.
Import ListNotations.

Local Open Scope Q_scope.

(** ** Exceptions and results *)

Inductive exn : Type :=
| NameError (name : string)
| ZeroDivisionError
| ValueError (msg : string)
| IndexError
| AttributeError (name : string)
| TypeError.

Inductive result (A : Type) : Type :=
| Ok (x : A)
| Err (e : exn).

Arguments Ok {A} x.
Arguments Err {A} e.

#[global] Instance result_bind : MBind result :=
  fun A B (k : A -> result B) (r : result A) =>
    match r with
    | Ok x => k x
    | Err e => Err e
    end.

(** [x / y] on Python floats. *)
Definition py_div (x y : Q) : result Q :=
  if Qeq_bool y 0 then Err ZeroDivisionError else Ok (x / y).

(** Python 2 [round]: to the nearest integer, halves away from zero. *)
Definition py_round (x : Q) : Z :=
  if Qle_bool 0 x then Qfloor (x + (1 # 2)) else (- Qfloor (- x + (1 # 2)))%Z.

(** [sum(f(c) for c in range(n))]. *)
Fixpoint Qsum (n : nat) (f : nat -> Q) : Q :=
  match n with
  | O => 0
  | S n' => Qsum n' f + f n'
  end.

(** ** Sparse matrices (scipy.sparse)

    The operations of the library that the notebook calls, after scipy's
    documented behaviour: [spdiags] places [data[k][j]] in column [j] of the
    diagonal of offset [diags[k]] and refuses duplicate offsets. *)

Record spmatrix : Type := {
  nrows : nat;
  ncols : nat;
  entry : nat -> nat -> Q
}.

Definition in_shape (nr nc r c : nat) : bool := (r <? nr)%nat && (c <? nc)%nat.

(** One stored diagonal of the DIA format: the entry of column [c] on the
    diagonal of offset [d] is [row[c]]. *)
Definition diag_at (d : Z) (row : list Q) (r c : nat) : Q :=
  if (Z.of_nat c - Z.of_nat r =? d)%Z then List.nth c row 0 else 0.

Fixpoint diags_entry (data : list (list Q)) (offs : list Z) (r c : nat) : Q :=
  match data, offs with
  | row :: data', d :: offs' => diag_at d row r c + diags_entry data' offs' r c
  | _, _ => 0
  end.

Fixpoint has_dup (l : list Z) : bool :=
  match l with
  | [] => false
  | x :: l' => List.existsb (Z.eqb x) l' || has_dup l'
  end.

(** [scipy.sparse.spdiags(data, diags, m, n)]. *)
Definition spdiags (data : list (list Q)) (offs : list Z) (nr nc : nat)
  : result spmatrix :=
  if negb (List.length data =? List.length offs)%nat then
    Err (ValueError "number of diagonals does not match the number of offsets")
  else if has_dup offs then
    Err (ValueError "offset array contains duplicate values")
  else
    Ok {| nrows := nr; ncols := nc;
          entry := fun r c =>
            if in_shape nr nc r c then diags_entry data offs r c else 0 |}.

(** [M[i, j] = x] on a LIL matrix. *)
Definition setitem (M : spmatrix) (i j : nat) (x : Q) : result spmatrix :=
  if in_shape (nrows M) (ncols M) i j then
    Ok {| nrows := nrows M; ncols := ncols M;
          entry := fun r c =>
            if (r =? i)%nat && (c =? j)%nat then x else entry M r c |}
  else Err IndexError.

(** [A + B]. *)
Definition spadd (A B : spmatrix) : result spmatrix :=
  if (nrows A =? nrows B)%nat && (ncols A =? ncols B)%nat then
    Ok {| nrows := nrows A; ncols := ncols A;
          entry := fun r c => entry A r c + entry B r c |}
  else Err (ValueError "inconsistent shapes").

(** [A /= x]: every stored entry is multiplied by [1.0 / x]. *)
Definition spidiv (A : spmatrix) (x : Q) : result spmatrix :=
  recip ← py_div 1 x;
  Ok {| nrows := nrows A; ncols := ncols A;
        entry := fun r c => entry A r c * recip |}.

(** [A.dot(U)]: the product of a sparse matrix with a flat array. *)
Definition matvec (A : spmatrix) (U : list Q) : list Q :=
  List.map (fun r => Qsum (ncols A) (fun c => entry A r c * List.nth c U 0))
           (List.seq 0 (nrows A)).

(** ** Diffusion terms: the periodic five-point Laplacian *)

(** [np.ones(n)]. *)
Definition ones (n : nat) : list Q := List.repeat 1 n.

(** [l * n] on Python lists. *)
Definition list_mul (l : list Q) (n : nat) : list Q :=
  List.concat (List.repeat l n).

(** [x * e] for a scalar [x] and an array [e]. *)
Definition scale (x : Q) (e : list Q) : list Q := List.map (Qmult x) e.

(** [for i in range(n): M = body(i, M)], stopping at the first error. *)
Fixpoint for_range {A : Type} (body : nat -> A -> result A) (i n : nat) (x : A)
  : result A :=
  match n with
  | O => Ok x
  | S n' => y ← body i x; for_range body (S i) n' y
  end.

Definition five_pt_laplacian_sparse_periodic (m : nat) (a b : Q)
  : result spmatrix :=
  let zm := Z.of_nat m in
  let e := ones (m ^ 2) in
  let e2 := list_mul (list_mul [1] (m - 1) ++ [0]) m in
  let e3 := list_mul ([0] ++ list_mul [1] (m - 1)) m in
  h ← py_div (b - a) (inject_Z (zm + 1));
  A ← spdiags [scale (-4) e; e2; e3; e; e] [0; -1; 1; - zm; zm]%Z
               (m ^ 2) (m ^ 2);
  (* Top & bottom BCs (.tolil(): the same entries in LIL storage): *)
  A_periodic ← spdiags [e; e] [zm - zm ^ 2; zm ^ 2 - zm]%Z (m ^ 2) (m ^ 2);
  (* Left & right BCs: *)
  A_periodic ← for_range (fun i M =>
                    M1 ← setitem M (i * m) ((i + 1) * m - 1) 1;
                    setitem M1 ((i + 1) * m - 1) (i * m) 1)
                  0 m A_periodic;
  A ← spadd A A_periodic;
  A ← spidiv A (h ^ 2);
  (* A.todia(): the same entries in DIA storage *)
  Ok A.

(** Row-major flattening [idx(i,j) = i*m + j] and the periodic neighbours. *)
Definition idx (m i j : nat) : nat := i * m + j.
Definition wrap_prev (m i : nat) : nat := (i + m - 1) mod m.
Definition wrap_next (m i : nat) : nat := (i + 1) mod m.

(** [kron t c] is 1 at [c = t] and 0 elsewhere. *)
Definition kron (t c : nat) : Q := if (c =? t)%nat then 1 else 0.

(** The positions written by the loop over [range(m)] started at [i0]. *)
Definition wrapb (m i0 k r c : nat) : bool :=
  List.existsb (fun i =>
      (r =? i * m)%nat && (c =? (i + 1) * m - 1)%nat
      || (r =? (i + 1) * m - 1)%nat && (c =? i * m)%nat)
    (List.seq i0 k).

(** The entries before the division by [h**2]: the banded matrix plus the
    periodic corrections. *)
Definition band (m r c : nat) : Q :=
  let zm := Z.of_nat m in
  let e := ones (m ^ 2) in
  let e2 := list_mul (list_mul [1] (m - 1) ++ [0]) m in
  let e3 := list_mul ([0] ++ list_mul [1] (m - 1)) m in
  if in_shape (m ^ 2) (m ^ 2) r c then
    diags_entry [scale (-4) e; e2; e3; e; e] [0; -1; 1; - zm; zm]%Z r c
  else 0.

Definition periodic (m r c : nat) : Q :=
  let zm := Z.of_nat m in
  let e := ones (m ^ 2) in
  if wrapb m 0 m r c then 1
  else if in_shape (m ^ 2) (m ^ 2) r c then
    diags_entry [e; e] [zm - zm ^ 2; zm ^ 2 - zm]%Z r c
  else 0.

(** The grid spacing the builder computes. *)
Definition spacing (m : nat) (a b : Q) : Q := (b - a) / inject_Z (Z.of_nat m + 1).

(** ** The operator applied to a grid *)

(** [U[i,j]] on the flattened grid. *)
Definition cell (m : nat) (U : list Q) (i j : nat) : Q := List.nth (idx m i j) U 0.

Definition impulse (n k : nat) : list Q := List.map (kron k) (List.seq 0 n).
Definition nonzero (q : Q) : bool := negb (Qeq_bool q 0).
Definition nnz_row (L : spmatrix) (r : nat) : nat :=
  List.length (List.filter (fun c => nonzero (entry L r c)) (List.seq 0 (ncols L))).
Definition row_sum (L : spmatrix) (r : nat) : Q := Qsum (ncols L) (entry L r).
Definition transpose (A : spmatrix) : spmatrix :=
  {| nrows := ncols A; ncols := nrows A; entry := fun r c => entry A c r |}.
Definition mat_eq (A B : spmatrix) : Prop :=
  nrows A = nrows B /\ ncols A = ncols B /\ forall r c, entry A r c == entry B r c.
Definition stencil_value (m : nat) (h : Q) (U : list Q) (i j : nat) : Q :=
  (cell m U (wrap_prev m i) j + cell m U (wrap_next m i) j
   + cell m U i (wrap_prev m j) + cell m U i (wrap_next m j)
   - 4 * cell m U i j) / h ^ 2.

(** The operator in closed form: the entries computed by the builder. *)
Definition laplacian_op (m : nat) (a b : Q) : spmatrix :=
  {| nrows := m ^ 2; ncols := m ^ 2;
     entry := fun r c =>
       (band m r c + periodic m r c) * (1 / spacing m a b ^ 2) |}.

Definition same_entries (A B : spmatrix) : Prop :=
  nrows A = nrows B /\ ncols A = ncols B /\ forall r c, entry A r c = entry B r c.

Definition neighbourhood (m i j : nat) : list nat :=
  [idx m i j; idx m (wrap_prev m i) j; idx m (wrap_next m i) j;
   idx m i (wrap_prev m j); idx m i (wrap_next m j)].

(* ------------------------------------------------------------------ *)
(** ** Reaction equations *)

(** The global constants of the notebook. *)
Record params : Type := {
  delta : Q; tau1 : Q; tau2 : Q; alpha : Q; beta : Q; gamma : Q
}.

Definition f (p : params) (u v : Q) : Q :=
  alpha p * u * (1 - tau1 p * v ^ 2) + v * (1 - tau2 p * u).

Definition g (p : params) (u v : Q) : result Q :=
  q ← py_div (alpha p * tau1 p) (beta p);
  Ok (beta p * v * (1 + q * u * v) + u * (gamma p + tau2 p * v)).

(** The additive form of [g], as the specification and the notebook's text
    write it. *)
Definition g_additive (p : params) (u v : Q) : Q :=
  beta p * v + alpha p * tau1 p * u * v ^ 2 + u * (gamma p + tau2 p * v).

(** ** Arrays and the store *)

Record ndarray : Type := { buf : nat; shape : list nat }.

Inductive pyval : Type :=
| VFloat (x : Q)
| VArray (a : ndarray)
| VSparse (A : spmatrix)
| VObject (name : string).

Record store : Type := { cells : gmap nat (list Q); next : nat }.

Definition alloc (xs : list Q) (shp : list nat) (st : store) : ndarray * store :=
  ({| buf := next st; shape := shp |},
   {| cells := <[next st := xs]> (cells st); next := S (next st) |}).

Definition read (a : ndarray) (st : store) : list Q :=
  default [] (cells st !! buf a).

Definition size_of (shp : list nat) : nat := List.fold_right Nat.mul 1%nat shp.

(** [a.reshape(shp)]: a view on the same buffer. *)
Definition reshape (a : ndarray) (shp : list nat) : result ndarray :=
  if (size_of (shape a) =? size_of shp)%nat then
    Ok {| buf := buf a; shape := shp |}
  else Err (ValueError "total size of new array must be unchanged").

(** What the display received: the title, the array object, and the values
    its buffer held when it was drawn. *)
Record snapshot : Type := {
  snap_title : option Q;
  snap_grid : ndarray;
  snap_seen : list Q
}.

(** The effects of a run: the array store, the plots handed to the display,
    and the number of calls of [one_step] that returned. *)
Record world : Type := {
  mem : store;
  plots : list snapshot;
  steps : nat
}.

Definition M (A : Type) : Type := world -> result A * world.

#[global] Instance M_ret : MRet M := fun A (x : A) (w : world) => (Ok x, w).

#[global] Instance M_bind : MBind M :=
  fun A B (k : A -> M B) (c : M A) (w : world) =>
    match c w with
    | (Ok x, w') => k x w'
    | (Err e, w') => (Err e, w')
    end.

Definition lift {A : Type} (r : result A) : M A := fun w => (r, w).

Definition with_store {A : Type} (c : store -> result A * store) : M A :=
  fun w =>
    let '(r, st) := c (mem w) in
    (r, {| mem := st; plots := plots w; steps := steps w |}).

Definition new_array (xs : list Q) (shp : list nat) : M ndarray :=
  with_store (fun st => let '(a, st') := alloc xs shp st in (Ok a, st')).

Definition plot (title : option Q) (U : ndarray) : M unit :=
  fun w =>
    (Ok tt,
     {| mem := mem w;
        plots := plots w ++ [{| snap_title := title; snap_grid := U;
                                snap_seen := read U (mem w) |}];
        steps := steps w |}).

Definition tick : M unit :=
  fun w => (Ok tt, {| mem := mem w; plots := plots w; steps := S (steps w) |}).

(** [x.reshape(shp)] on a Python value. *)
Definition py_reshape (x : pyval) (shp : list nat) : result ndarray :=
  match x with
  | VArray a => reshape a shp
  | _ => Err (AttributeError "reshape")
  end.

(** ** Time stepping *)

(** The signature of [one_step(u,v,k,A,delta,D1,D2)]. *)
Definition stepper : Type :=
  pyval -> pyval -> Q -> spmatrix -> Q -> Q -> Q ->
  store -> result (pyval * pyval) * store.

(** The data bound in the notebook's global namespace, and the names bound
    there to functions and modules.  ([%pylab inline] adds the names of
    numpy and pylab, none of which is [u_new] or [v_new].) *)
Definition notebook_globals (p : params) (A : spmatrix) : gmap string pyval :=
  {[ "delta" := VFloat (delta p); "tau1" := VFloat (tau1 p);
     "tau2" := VFloat (tau2 p); "alpha" := VFloat (alpha p);
     "beta" := VFloat (beta p); "gamma" := VFloat (gamma p);
     "A" := VSparse A ]}.

Definition notebook_objects : list string :=
  ["np"; "scipy"; "plt"; "clear_output"; "time"; "f"; "g";
   "five_pt_laplacian_sparse_periodic"; "one_step"; "step_size";
   "pattern_formation"].

(** A name that is not assigned in a function body is looked up in the
    global namespace. *)
Definition load_global (G : gmap string pyval) (x : string) : result pyval :=
  match G !! x with
  | Some v => Ok v
  | None =>
      if List.existsb (String.eqb x) notebook_objects then Ok (VObject x)
      else Err (NameError x)
  end.

Module ForwardEuler.
Definition one_step (G : gmap string pyval) : stepper :=
  fun u v k A delta D1 D2 st =>
    (u_new ← load_global G "u_new";
     v_new ← load_global G "v_new";
     Ok (u_new, v_new), st).

Definition step_size (h delta : Q) : result Q := py_div (h ^ 2) (5 * delta).
End ForwardEuler.

Module ImexSplit.
Definition one_step (G : gmap string pyval) : stepper :=
  fun u v k A delta D1 D2 st =>
    (* Your code here *)
    (u_new ← load_global G "u_new";
     v_new ← load_global G "v_new";
     Ok (u_new, v_new), st).

Definition step_size (h delta : Q) : result Q := py_div h (10 * delta).
End ImexSplit.

(** ** The driver *)

(** The globals [pattern_formation] reads when it is called. *)
Record globals : Type := {
  gl_delta : Q;
  gl_step_size : Q -> Q -> result Q;
  gl_one_step : stepper
}.

(** [np.random.randn(m,m)]: the samples come from the random source. *)
Definition randn (noise : nat -> Q) (m : nat) : M ndarray :=
  new_array (List.map noise (List.seq 0 (m * m))) [m; m].

(** [x / 2.] on an array: a new array. *)
Definition halved (x : ndarray) : M ndarray :=
  fun w => new_array (List.map (fun q => q / 2) (read x (mem w))) (shape x) w.

Definition Qgt_bool (x y : Q) : bool := negb (Qle_bool x y).

(** The loop [for j in range(N)]. *)
Fixpoint time_loop (one_step : stepper) (m : nat) (k : Q) (A : spmatrix)
    (delta : Q) (N : nat) (u v : pyval) (t next_plot : Q) : M unit :=
  match N with
  | O => mret tt
  | S N' =>
      uv ← with_store (one_step u v k A delta (1 # 2) 1);
      _ ← tick;
      let u := fst uv in
      let v := snd uv in
      let t := t + k in
      (* Plot every t=5 units *)
      if Qgt_bool t next_plot then
        let next_plot := next_plot + 5 in
        U ← lift (py_reshape u [m; m]);
        _ ← plot (Some t) U;
        time_loop one_step m k A delta N' u v t next_plot
      else
        time_loop one_step m k A delta N' u v t next_plot
  end.

Definition pattern_formation (G : globals) (noise_u noise_v : nat -> Q)
    (m : nat) (T : Q) : M unit :=
  let D1 := 1 # 2 in
  let D2 := 1 in
  (* Set up the grid (the coordinates x, y, X, Y only label the plots) *)
  let a := - (1) in
  let b := 1 in
  h ← lift (py_div (b - a) (inject_Z (Z.of_nat m)));
  (* Initial data *)
  u ← randn noise_u m;
  u ← halved u;
  v ← randn noise_v m;
  v ← halved v;
  _ ← plot None u;
  u ← lift (reshape u [size_of (shape u)]);
  v ← lift (reshape v [size_of (shape v)]);
  A ← lift (five_pt_laplacian_sparse_periodic m (- (1)) 1);
  let t := 0 in
  k ← lift (gl_step_size G h (gl_delta G));
  q ← lift (py_div T k);
  let N := py_round q in
  (* Now step forward in time *)
  let next_plot := 0 in
  time_loop (gl_one_step G) m k A (gl_delta G) (Z.to_nat N)
            (VArray u) (VArray v) t next_plot.

Definition initial_world : world :=
  {| mem := {| cells := ∅; next := 0 |}; plots := []; steps := 0 |}.

(** Two ways to complete the exercise, used as test inputs for the driver:
    [u *= 0.5; v *= 0.5; return u, v] writes into the arrays it is given;
    [return 0.5*u, 0.5*v] returns new arrays. *)
Definition store_write (a : ndarray) (xs : list Q) (st : store) : store :=
  {| cells := <[buf a := xs]> (cells st); next := next st |}.

Definition decay_in_place : stepper :=
  fun u v k A delta D1 D2 st =>
    match u, v with
    | VArray a, VArray b =>
        let st1 := store_write a (List.map (Qmult (1 # 2)) (read a st)) st in
        let st2 := store_write b (List.map (Qmult (1 # 2)) (read b st1)) st1 in
        (Ok (u, v), st2)
    | _, _ => (Err TypeError, st)
    end.

Definition decay_copy : stepper :=
  fun u v k A delta D1 D2 st =>
    match u, v with
    | VArray a, VArray b =>
        let '(a', st1) := alloc (List.map (Qmult (1 # 2)) (read a st)) (shape a) st in
        let '(b', st2) := alloc (List.map (Qmult (1 # 2)) (read b st1)) (shape b) st1 in
        (Ok (VArray a', VArray b'), st2)
    | _, _ => (Err TypeError, st)
    end.

(* ------------------------------------------------------------------ *)
(** ** Notions used in the statements *)

(** The first parameter set of the notebook, and the same with [beta = 0]. *)
Definition notebook_params : params :=
  {| delta := 45 # 10000; tau1 := 2 # 100; tau2 := 2 # 10;
     alpha := 899 # 1000; beta := - (91 # 100); gamma := - (899 # 1000) |}.

Definition beta_zero_params : params :=
  {| delta := 45 # 10000; tau1 := 2 # 100; tau2 := 2 # 10;
     alpha := 899 # 1000; beta := 0; gamma := - (899 # 1000) |}.

(** The world when the time loop starts: the four arrays drawn for the
    initial data and the first plot. *)
Definition initial_data (noise_u noise_v : nat -> Q) (m : nat)
  : M (ndarray * ndarray) :=
  u ← randn noise_u m;
  u ← halved u;
  v ← randn noise_v m;
  v ← halved v;
  _ ← plot None u;
  mret (u, v).

Definition setup_world (noise_u noise_v : nat -> Q) (m : nat) : world :=
  snd (initial_data noise_u noise_v m initial_world).

Definition flat (b m : nat) : ndarray :=
  {| buf := b; shape := [size_of [m; m]] |}.

(** The number of steps the driver schedules: [N = int(round(T/k))]. *)
Definition planned_steps (G : globals) (m : nat) (T : Q) : result nat :=
  h ← py_div (1 - - (1)) (inject_Z (Z.of_nat m));
  k ← gl_step_size G h (gl_delta G);
  q ← py_div T k;
  Ok (Z.to_nat (py_round q)).

Definition is_grid (m : nat) (x : pyval) : Prop :=
  exists a, x = VArray a /\ size_of (shape a) = size_of [m; m].

(** A stepper that always returns, with arrays of the size of the grid. *)
Definition total_stepper (m : nat) (s : stepper) : Prop :=
  forall u v k A delta D1 D2 st,
    is_grid m u -> is_grid m v ->
    exists u' v' st',
      s u v k A delta D1 D2 st = (Ok (u', v'), st')
      /\ is_grid m u' /\ is_grid m v'.

Definition wf_store (st : store) : Prop :=
  forall l, is_Some (cells st !! l) -> (l < next st)%nat.

Definition allocated (st : store) (x : pyval) : Prop :=
  match x with
  | VArray a => is_Some (cells st !! buf a)
  | _ => True
  end.

(** A stepper that leaves the existing buffers as they are and returns
    arrays that live in the store. *)
Definition pure_stepper (s : stepper) : Prop :=
  forall u v k A delta D1 D2 st r st',
    wf_store st ->
    s u v k A delta D1 D2 st = (r, st') ->
    wf_store st' /\ cells st ⊆ cells st'
    /\ forall u' v', r = Ok (u', v') -> allocated st' u'.

(** The buffer of the array the display holds still has the values that
    were drawn. *)
Definition snapshot_intact (st : store) (s : snapshot) : Prop :=
  cells st !! buf (snap_grid s) = Some (snap_seen s).

Definition snapshots_intact (w : world) : Prop :=
  List.Forall (snapshot_intact (mem w)) (plots w).

(** The notebook's second parameter set, with the explicit step size. *)
Definition euler_globals (s : stepper) : globals :=
  {| gl_delta := 21 # 10000; gl_step_size := ForwardEuler.step_size;
     gl_one_step := s |}.

Definition empty_matrix : spmatrix :=
  {| nrows := 0; ncols := 0; entry := fun _ _ => 0 |}.

Definition test_noise (i : nat) : Q := inject_Z (Z.of_nat i) / 10.

Definition unimplemented_globals : globals :=
  euler_globals (ForwardEuler.one_step (notebook_globals notebook_params empty_matrix)).

(** [h=(b-a)/m], the grid spacing the driver computes. *)
Definition grid_h (m : nat) : Q := (1 - - (1)) / inject_Z (Z.of_nat m).

(** The parameter set of the cell that defines [pattern_formation]. *)
Definition stripes_params : params :=
  {| delta := 21 # 10000; tau1 := 7 # 2; tau2 := 0;
     alpha := 899 # 1000; beta := - (91 # 100); gamma := - (899 # 1000) |}.


(** The cyclic shifts of the flattened grid by one row and by one column
    (what [np.roll(U, -1, axis)] computes on the [m] by [m] grid). *)
Definition shift_rows (m : nat) (U : list Q) : list Q :=
  List.map (fun r => cell m U (wrap_next m (r / m)) (r mod m))
           (List.seq 0 (m * m)).

Definition shift_cols (m : nat) (U : list Q) : list Q :=
  List.map (fun r => cell m U (r / m) (wrap_next m (r mod m)))
           (List.seq 0 (m * m)).

(** [np.sum(v)]. *)
Definition total (v : list Q) : Q := List.fold_right Qplus 0 v.

(** [U.dot(A.dot(U))]. *)
Definition quad (A : spmatrix) (U : list Q) : Q :=
  Qsum (nrows A) (fun r => List.nth r U 0 * List.nth r (matvec A U) 0).

(** The checkerboard grid: [+1] on the cells with [i + j] even, [-1] on the
    others. *)
Definition checker (m : nat) : list Q :=
  List.map (fun r => if Nat.even (r / m + r mod m) then 1 else - (1))
           (List.seq 0 (m * m)).

(* ------------------------------------------------------------------ *)
(** * Properties *)

(** ** Sums *)

Lemma Qsum_ext n f g :
  (forall c, (c < n)%nat -> f c == g c) -> Qsum n f == Qsum n g.
Proof.
  induction n as [|n IH]; intros H; simpl; [reflexivity|].
  rewrite IH by (intros c Hc; apply H; lia).
  rewrite (H n) by lia. reflexivity.
Qed.

Lemma Qsum_plus n f g :
  Qsum n (fun c => f c + g c) == Qsum n f + Qsum n g.
Proof. induction n as [|n IH]; simpl; [ring|]. rewrite IH. ring. Qed.

Lemma Qsum_scal n k f : Qsum n (fun c => k * f c) == k * Qsum n f.
Proof. induction n as [|n IH]; simpl; [ring|]. rewrite IH. ring. Qed.

Lemma Qsum_zero n f : (forall c, (c < n)%nat -> f c == 0) -> Qsum n f == 0.
Proof.
  induction n as [|n IH]; intros H; simpl; [reflexivity|].
  rewrite IH by (intros c Hc; apply H; lia). rewrite (H n) by lia. ring.
Qed.

Lemma Qsum_kron n t g :
  (t < n)%nat -> Qsum n (fun c => kron t c * g c) == g t.
Proof.
  induction n as [|n IH]; intros Ht; [lia|]. simpl.
  destruct (Nat.eq_dec t n) as [->|Hne].
  - rewrite Qsum_zero.
    + unfold kron. rewrite Nat.eqb_refl. ring.
    + intros c Hc. unfold kron.
      destruct (Nat.eqb_spec c n); [lia|ring].
  - rewrite IH by lia. unfold kron.
    destruct (Nat.eqb_spec n t); [lia|ring].
Qed.

(** ** The data rows [e], [e2], [e3] *)

Lemma length_list_mul l k :
  List.length (list_mul l k) = (k * List.length l)%nat.
Proof.
  unfold list_mul. induction k as [|k IH]; simpl; [reflexivity|].
  rewrite List.length_app, IH. reflexivity.
Qed.

Lemma nth_list_mul l k c d :
  (c < k * List.length l)%nat ->
  List.nth c (list_mul l k) d = List.nth (c mod List.length l) l d.
Proof.
  unfold list_mul. revert c. induction k as [|k IH]; intros c Hc; [lia|].
  simpl List.concat.
  destruct (Nat.lt_ge_cases c (List.length l)) as [Hlt|Hge].
  - rewrite List.app_nth1 by assumption. now rewrite Nat.mod_small.
  - rewrite List.app_nth2 by assumption. rewrite IH by lia.
    f_equal.
    replace c with (c - List.length l + 1 * List.length l)%nat at 2 by lia.
    now rewrite Nat.Div0.mod_add.
Qed.

Lemma nth_ones n c : (c < n)%nat -> List.nth c (ones n) 0 = 1.
Proof.
  intros Hc. unfold ones. apply List.nth_repeat_lt; assumption.
Qed.

Lemma list_mul_one k : list_mul [1] k = ones k.
Proof.
  unfold list_mul, ones. induction k as [|k IH]; simpl; [reflexivity|].
  now rewrite IH.
Qed.

Lemma nth_e2 m c :
  (c < m * m)%nat ->
  List.nth c (list_mul (list_mul [1] (m - 1) ++ [0]) m) 0
  = if (c mod m =? m - 1)%nat then 0 else 1.
Proof.
  intros Hc. assert (Hm : (0 < m)%nat) by lia.
  assert (Hlen : List.length (list_mul [1] (m - 1) ++ [0]) = m).
  { rewrite List.length_app, length_list_mul. simpl. lia. }
  rewrite nth_list_mul by (rewrite Hlen; exact Hc).
  rewrite Hlen, list_mul_one.
  pose proof (Nat.mod_upper_bound c m ltac:(lia)) as Hb.
  destruct (Nat.eqb_spec (c mod m) (m - 1)) as [He|Hne].
  - rewrite He, List.app_nth2 by (unfold ones; rewrite List.repeat_length; lia).
    unfold ones. rewrite List.repeat_length, Nat.sub_diag. reflexivity.
  - rewrite List.app_nth1 by (unfold ones; rewrite List.repeat_length; lia).
    apply nth_ones. lia.
Qed.

Lemma nth_e3 m c :
  (c < m * m)%nat ->
  List.nth c (list_mul ([0] ++ list_mul [1] (m - 1)) m) 0
  = if (c mod m =? 0)%nat then 0 else 1.
Proof.
  intros Hc. assert (Hm : (0 < m)%nat) by lia.
  assert (Hlen : List.length ([0] ++ list_mul [1] (m - 1)) = m).
  { rewrite List.length_app, length_list_mul. simpl. lia. }
  rewrite nth_list_mul by (rewrite Hlen; exact Hc).
  rewrite Hlen, list_mul_one.
  pose proof (Nat.mod_upper_bound c m ltac:(lia)) as Hb.
  destruct (Nat.eqb_spec (c mod m) 0) as [He|Hne].
  - rewrite He. reflexivity.
  - destruct (c mod m) as [|x] eqn:Hx; [congruence|].
    simpl. apply nth_ones. lia.
Qed.

Lemma nth_scale_ones k n c :
  (c < n)%nat -> List.nth c (scale k (ones n)) 0 == k.
Proof.
  intros Hc. unfold scale.
  rewrite (List.nth_indep _ 0 (k * 0)) by (rewrite List.length_map; unfold ones; rewrite List.repeat_length; exact Hc).
  rewrite List.map_nth, nth_ones by assumption. ring.
Qed.

Lemma mod_idx m i j : (j < m)%nat -> ((i * m + j) mod m = j)%nat.
Proof.
  intros Hj. rewrite Nat.add_comm, Nat.Div0.mod_add. now apply Nat.mod_small.
Qed.

Lemma div_idx m i j : (j < m)%nat -> ((i * m + j) / m = i)%nat.
Proof.
  intros Hj. rewrite Nat.add_comm, Nat.div_add by lia.
  rewrite Nat.div_small by assumption. reflexivity.
Qed.

Lemma wrap_prev_if m i :
  (i < m)%nat -> wrap_prev m i = if (i =? 0)%nat then (m - 1)%nat else (i - 1)%nat.
Proof.
  intros Hi. unfold wrap_prev. destruct (Nat.eqb_spec i 0) as [->|Hne].
  - apply Nat.mod_small. lia.
  - replace (i + m - 1)%nat with (1 * m + (i - 1))%nat by lia.
    apply mod_idx. lia.
Qed.

Lemma wrap_next_if m i :
  (i < m)%nat -> wrap_next m i = if (i =? m - 1)%nat then 0%nat else (i + 1)%nat.
Proof.
  intros Hi. unfold wrap_next. destruct (Nat.eqb_spec i (m - 1)) as [->|Hne].
  - replace (m - 1 + 1)%nat with (1 * m + 0)%nat by lia. apply mod_idx. lia.
  - apply Nat.mod_small. lia.
Qed.

(** ** The loop over the left and right boundary columns *)

Lemma setitem_ok M i j x :
  (i < nrows M)%nat -> (j < ncols M)%nat ->
  setitem M i j x =
  Ok {| nrows := nrows M; ncols := ncols M;
        entry := fun r c =>
          if (r =? i)%nat && (c =? j)%nat then x else entry M r c |}.
Proof.
  intros Hi Hj. unfold setitem, in_shape.
  destruct (Nat.ltb_spec i (nrows M)); [|lia].
  destruct (Nat.ltb_spec j (ncols M)); [|lia].
  reflexivity.
Qed.

Lemma for_range_setitem m n k :
  forall i0 M,
    nrows M = n -> ncols M = n -> n = (m * m)%nat -> (i0 + k <= m)%nat ->
    exists M',
      for_range (fun i M =>
                   M1 ← setitem M (i * m) ((i + 1) * m - 1) 1;
                   setitem M1 ((i + 1) * m - 1) (i * m) 1) i0 k M = Ok M'
      /\ nrows M' = n /\ ncols M' = n
      /\ forall r c, entry M' r c = if wrapb m i0 k r c then 1 else entry M r c.
Proof.
  induction k as [|k IH]; intros i0 M Hr Hc Hn Hk.
  - exists M. repeat split; assumption.
  - assert (Hlo : (i0 * m < n)%nat) by nia.
    assert (Hhi : ((i0 + 1) * m - 1 < n)%nat) by nia.
    cbn [for_range].
    rewrite (setitem_ok M) by lia. cbn [mbind result_bind].
    rewrite setitem_ok by (cbn [nrows ncols]; lia).
    cbn [nrows ncols mbind result_bind].
    match goal with
    | |- context [for_range _ (S i0) k ?M1] =>
        destruct (IH (S i0) M1) as (M' & HM' & Hr' & Hc' & He');
        [exact Hr | exact Hc | exact Hn | lia |]; rewrite HM'
    end.
    exists M'. repeat split; try assumption.
    intros r c. rewrite He'. cbn [entry]. unfold wrapb. cbn [List.seq List.existsb].
    destruct (List.existsb _ (List.seq (S i0) k)).
    + now rewrite orb_true_r.
    + rewrite orb_false_r.
      destruct ((r =? (i0 + 1) * m - 1)%nat && (c =? i0 * m)%nat);
        [now rewrite orb_true_r|].
      rewrite orb_false_r. reflexivity.
Qed.

Lemma Qeq_bool_false x : ~ x == 0 -> Qeq_bool x 0 = false.
Proof.
  intros H. destruct (Qeq_bool x 0) eqn:E; [|reflexivity].
  apply Qeq_bool_eq in E. contradiction.
Qed.

Lemma spacing_nonzero m a b : ~ a == b -> ~ spacing m a b == 0.
Proof.
  intros Hab H. unfold spacing in H.
  assert (Hm : ~ inject_Z (Z.of_nat m + 1) == 0).
  { unfold Qeq. simpl. lia. }
  apply Hab.
  assert (Hz : b - a == 0).
  { assert (E : b - a == (b - a) / inject_Z (Z.of_nat m + 1) * inject_Z (Z.of_nat m + 1))
      by (field; exact Hm).
    rewrite E, H. ring. }
  assert (E : a == b - (b - a)) by ring.
  rewrite E, Hz. ring.
Qed.

Lemma builder_prefix m a b :
  (2 <= m)%nat ->
  exists A0,
    nrows A0 = (m ^ 2)%nat /\ ncols A0 = (m ^ 2)%nat
    /\ (forall r c, entry A0 r c = band m r c + periodic m r c)
    /\ five_pt_laplacian_sparse_periodic m a b
       = spidiv A0 (spacing m a b ^ 2).
Proof.
  intros Hm. unfold five_pt_laplacian_sparse_periodic.
  unfold py_div at 1.
  rewrite Qeq_bool_false by (unfold Qeq; simpl; lia).
  cbn [mbind result_bind]. fold (spacing m a b).
  unfold spdiags. cbn [List.length Nat.eqb negb has_dup List.existsb].
  assert (Hz : (2 <= Z.of_nat m)%Z) by lia.
  repeat match goal with
         | |- context [Z.eqb ?x ?y] =>
             destruct (Z.eqb_spec x y); [exfalso; nia|]
         end.
  cbn [orb mbind result_bind].
  match goal with
  | |- context [for_range _ 0 m ?M0] =>
      destruct (for_range_setitem m (m ^ 2) m 0 M0) as (Mp & HMp & Hr & Hc & He);
      [reflexivity | reflexivity | simpl; lia | lia |]
  end.
  rewrite HMp. cbn [mbind result_bind].
  unfold spadd. cbn [nrows ncols]. rewrite Hr, Hc, !Nat.eqb_refl.
  cbn [andb mbind result_bind].
  match goal with |- context [spidiv ?A0 _] => exists A0 end.
  cbn [nrows ncols entry]. repeat split.
  - intros r c. rewrite He. reflexivity.
  - destruct (spidiv _ _); reflexivity.
Qed.

Lemma sq_nonzero x : ~ x == 0 -> ~ x ^ 2 == 0.
Proof. intros H. apply Qpower_not_0. exact H. Qed.

Lemma builder_entries m a b :
  (2 <= m)%nat -> ~ a == b ->
  exists L,
    five_pt_laplacian_sparse_periodic m a b = Ok L
    /\ nrows L = (m ^ 2)%nat /\ ncols L = (m ^ 2)%nat
    /\ forall r c,
         entry L r c = (band m r c + periodic m r c) * (1 / spacing m a b ^ 2).
Proof.
  intros Hm Hab.
  destruct (builder_prefix m a b Hm) as (A0 & Hr & Hc & He & HL).
  rewrite HL. unfold spidiv, py_div.
  rewrite Qeq_bool_false by (apply sq_nonzero, spacing_nonzero; exact Hab).
  cbn [mbind result_bind]. eexists. split; [reflexivity|].
  cbn [nrows ncols entry]. repeat split; try assumption.
  intros r c. now rewrite He.
Qed.



(** ** The entries of one row *)

Lemma idx_inj m i j i' j' :
  (j < m)%nat -> (j' < m)%nat -> idx m i j = idx m i' j' -> i = i' /\ j = j'.
Proof.
  unfold idx. intros Hj Hj' H. split.
  - rewrite <- (div_idx m i j Hj), <- (div_idx m i' j' Hj'). now rewrite H.
  - rewrite <- (mod_idx m i j Hj), <- (mod_idx m i' j' Hj'). now rewrite H.
Qed.

Lemma idx_lt m i j : (i < m)%nat -> (j < m)%nat -> (idx m i j < m * m)%nat.
Proof. unfold idx. intros Hi Hj. nia. Qed.

Lemma kron_eq t t' c : t = t' -> kron t c == kron t' c.
Proof. intros ->. reflexivity. Qed.

Section Row.
Variables (m i j c : nat).
Hypothesis Hm : (2 <= m)%nat.
Hypothesis Hi : (i < m)%nat.
Hypothesis Hj : (j < m)%nat.
Hypothesis Hc : (c < m * m)%nat.

Local Abbreviation r := (idx m i j).

Lemma row_lt : (r < m * m)%nat.
Proof. apply idx_lt; assumption. Qed.

Lemma diag_centre :
  diag_at 0 (scale (-4) (ones (m ^ 2))) r c == -4 * kron r c.
Proof.
  unfold diag_at, kron.
  destruct (Z.eqb_spec (Z.of_nat c - Z.of_nat r) 0);
    destruct (Nat.eqb_spec c r); try lia; [|ring].
  rewrite nth_scale_ones by (simpl; lia). ring.
Qed.

Lemma diag_west :
  diag_at (-1) (list_mul (list_mul [1] (m - 1) ++ [0]) m) r c
  == if (j =? 0)%nat then 0 else kron (r - 1) c.
Proof.
  unfold diag_at, kron. rewrite nth_e2 by exact Hc.
  destruct (Z.eqb_spec (Z.of_nat c - Z.of_nat r) (-1)) as [E|E].
  - assert (Ec : c = (r - 1)%nat) by lia.
    destruct (Nat.eqb_spec j 0) as [Ej|Ej].
    + assert (Hi1 : (1 <= i)%nat) by (unfold idx in *; nia).
      replace c with ((i - 1) * m + (m - 1))%nat
        by (unfold idx in *; nia).
      rewrite mod_idx by lia. now rewrite Nat.eqb_refl.
    + replace c with (i * m + (j - 1))%nat at 1
        by (unfold idx in *; lia).
      rewrite mod_idx by lia.
      destruct (Nat.eqb_spec (j - 1) (m - 1)); [lia|].
      destruct (Nat.eqb_spec c (r - 1)); [reflexivity|lia].
  - destruct (Nat.eqb_spec j 0); [reflexivity|].
    destruct (Nat.eqb_spec c (r - 1)); [|reflexivity].
    unfold idx in *; lia.
Qed.

Lemma diag_east :
  diag_at 1 (list_mul ([0] ++ list_mul [1] (m - 1)) m) r c
  == if (j =? m - 1)%nat then 0 else kron (r + 1) c.
Proof.
  unfold diag_at, kron. rewrite nth_e3 by exact Hc.
  destruct (Z.eqb_spec (Z.of_nat c - Z.of_nat r) 1) as [E|E].
  - assert (Ec : c = (r + 1)%nat) by lia.
    destruct (Nat.eqb_spec j (m - 1)) as [Ej|Ej].
    + replace c with ((i + 1) * m + 0)%nat
        by (unfold idx in *; nia).
      rewrite mod_idx by lia. reflexivity.
    + replace c with (i * m + (j + 1))%nat at 1
        by (unfold idx in *; lia).
      rewrite mod_idx by lia.
      destruct (Nat.eqb_spec (j + 1) 0); [lia|].
      destruct (Nat.eqb_spec c (r + 1)); [reflexivity|lia].
  - destruct (Nat.eqb_spec j (m - 1)); [reflexivity|].
    destruct (Nat.eqb_spec c (r + 1)); [lia|reflexivity].
Qed.

Lemma diag_north :
  diag_at (- Z.of_nat m) (ones (m ^ 2)) r c
  == if (i =? 0)%nat then 0 else kron (r - m) c.
Proof.
  unfold diag_at, kron. rewrite nth_ones by (simpl; lia).
  destruct (Z.eqb_spec (Z.of_nat c - Z.of_nat r) (- Z.of_nat m)) as [E|E];
    destruct (Nat.eqb_spec i 0) as [Ei|Ei];
    try destruct (Nat.eqb_spec c (r - m)); try reflexivity;
    exfalso; unfold idx in *; nia.
Qed.

Lemma diag_south :
  diag_at (Z.of_nat m) (ones (m ^ 2)) r c
  == if (i =? m - 1)%nat then 0 else kron (r + m) c.
Proof.
  unfold diag_at, kron. rewrite nth_ones by (simpl; lia).
  destruct (Z.eqb_spec (Z.of_nat c - Z.of_nat r) (Z.of_nat m)) as [E|E];
    destruct (Nat.eqb_spec i (m - 1)) as [Ei|Ei];
    try destruct (Nat.eqb_spec c (r + m)); try reflexivity;
    exfalso; unfold idx in *; nia.
Qed.

Lemma diag_top :
  diag_at (Z.of_nat m - Z.of_nat m ^ 2) (ones (m ^ 2)) r c
  == if (i =? m - 1)%nat then kron (r - (m * m - m)) c else 0.
Proof.
  unfold diag_at, kron. rewrite nth_ones by (simpl; lia).
  destruct (Z.eqb_spec (Z.of_nat c - Z.of_nat r) (Z.of_nat m - Z.of_nat m ^ 2)) as [E|E];
    destruct (Nat.eqb_spec i (m - 1)) as [Ei|Ei];
    try destruct (Nat.eqb_spec c (r - (m * m - m))); try reflexivity;
    exfalso; unfold idx in *; nia.
Qed.

Lemma diag_bottom :
  diag_at (Z.of_nat m ^ 2 - Z.of_nat m) (ones (m ^ 2)) r c
  == if (i =? 0)%nat then kron (r + (m * m - m)) c else 0.
Proof.
  unfold diag_at, kron. rewrite nth_ones by (simpl; lia).
  destruct (Z.eqb_spec (Z.of_nat c - Z.of_nat r) (Z.of_nat m ^ 2 - Z.of_nat m)) as [E|E];
    destruct (Nat.eqb_spec i 0) as [Ei|Ei];
    try destruct (Nat.eqb_spec c (r + (m * m - m))); try reflexivity;
    exfalso; unfold idx in *; nia.
Qed.
End Row.

Section RowPeriodic.
Variables (m i j c : nat).
Hypothesis Hm : (2 <= m)%nat.
Hypothesis Hi : (i < m)%nat.
Hypothesis Hj : (j < m)%nat.
Hypothesis Hc : (c < m * m)%nat.

Local Abbreviation r := (idx m i j).

Lemma wrapb_row :
  wrapb m 0 m r c
  = (j =? 0)%nat && (c =? r + (m - 1))%nat
    || (j =? m - 1)%nat && (c =? r - (m - 1))%nat.
Proof.
  apply eq_true_iff_eq. unfold wrapb.
  rewrite List.existsb_exists, orb_true_iff, !andb_true_iff, !Nat.eqb_eq.
  split.
  - intros (i' & Hin & H). apply List.in_seq in Hin.
    apply orb_true_iff in H. rewrite !andb_true_iff, !Nat.eqb_eq in H.
    destruct H as [[Hr Hcc]|[Hr Hcc]].
    + destruct (idx_inj m i j i' 0) as [-> ->]; [lia|lia|unfold idx; unfold idx in Hr; lia|].
      left. split; [reflexivity|]. unfold idx. lia.
    + destruct (idx_inj m i j i' (m - 1)) as [-> ->];
        [lia|lia|unfold idx; unfold idx in Hr; lia|].
      right. split; [reflexivity|]. unfold idx. lia.
  - intros H. exists i. split; [apply List.in_seq; lia|].
    apply orb_true_iff. rewrite !andb_true_iff, !Nat.eqb_eq.
    unfold idx in *. destruct H as [[-> ->]|[-> ->]]; [left|right]; lia.
Qed.

Lemma periodic_row :
  periodic m r c
  == (if (i =? 0)%nat then kron (r + (m * m - m)) c else 0)
     + (if (i =? m - 1)%nat then kron (r - (m * m - m)) c else 0)
     + (if (j =? 0)%nat then kron (r + (m - 1)) c else 0)
     + (if (j =? m - 1)%nat then kron (r - (m - 1)) c else 0).
Proof.
  pose proof (row_lt m i j Hi Hj) as Hr.
  unfold periodic. rewrite wrapb_row. unfold in_shape.
  destruct (Nat.ltb_spec r (m ^ 2)); [|simpl in *; lia].
  destruct (Nat.ltb_spec c (m ^ 2)); [|simpl in *; lia].
  cbn [andb diags_entry].
  destruct ((j =? 0)%nat && (c =? r + (m - 1))%nat
            || (j =? m - 1)%nat && (c =? r - (m - 1))%nat) eqn:EW.
  - apply orb_true_iff in EW. rewrite !andb_true_iff, !Nat.eqb_eq in EW.
    unfold kron.
    destruct EW as [[Ej Ec]|[Ej Ec]];
      destruct (Nat.eqb_spec j 0) as [Ej0|Ej0]; try lia;
      destruct (Nat.eqb_spec j (m - 1)) as [Ej1|Ej1]; try lia;
      destruct (Nat.eqb_spec i 0) as [Ei|Ei];
      destruct (Nat.eqb_spec i (m - 1)) as [Ei'|Ei']; try lia;
      repeat match goal with
             | |- context [Nat.eqb ?x ?y] => destruct (Nat.eqb_spec x y)
             end;
      try ring; exfalso; unfold idx in *; nia.
  - rewrite diag_top, diag_bottom by assumption.
    apply orb_false_iff in EW. rewrite !andb_false_iff, !Nat.eqb_neq in EW.
    unfold kron.
    destruct (Nat.eqb_spec j 0) as [Ej0|Ej0];
      destruct (Nat.eqb_spec j (m - 1)) as [Ej1|Ej1]; try lia;
      destruct (Nat.eqb_spec i 0) as [Ei|Ei];
      destruct (Nat.eqb_spec i (m - 1)) as [Ei'|Ei']; try lia;
      repeat match goal with
             | |- context [Nat.eqb ?x ?y] => destruct (Nat.eqb_spec x y)
             end;
      try ring; exfalso; unfold idx in *; lia.
Qed.

Lemma north_entry :
  (if (i =? 0)%nat then 0 else kron (r - m) c)
  + (if (i =? 0)%nat then kron (r + (m * m - m)) c else 0)
  == kron (idx m (wrap_prev m i) j) c.
Proof.
  rewrite wrap_prev_if by exact Hi.
  destruct (Nat.eqb_spec i 0) as [Ei|Ei].
  - rewrite (kron_eq (r + (m * m - m)) (idx m (m - 1) j)); [ring|].
    unfold idx. nia.
  - rewrite (kron_eq (r - m) (idx m (i - 1) j)); [ring|].
    unfold idx. nia.
Qed.

Lemma south_entry :
  (if (i =? m - 1)%nat then 0 else kron (r + m) c)
  + (if (i =? m - 1)%nat then kron (r - (m * m - m)) c else 0)
  == kron (idx m (wrap_next m i) j) c.
Proof.
  rewrite wrap_next_if by exact Hi.
  destruct (Nat.eqb_spec i (m - 1)) as [Ei|Ei].
  - rewrite (kron_eq (r - (m * m - m)) (idx m 0 j)); [ring|].
    unfold idx. nia.
  - rewrite (kron_eq (r + m) (idx m (i + 1) j)); [ring|].
    unfold idx. nia.
Qed.

Lemma west_entry :
  (if (j =? 0)%nat then 0 else kron (r - 1) c)
  + (if (j =? 0)%nat then kron (r + (m - 1)) c else 0)
  == kron (idx m i (wrap_prev m j)) c.
Proof.
  rewrite wrap_prev_if by exact Hj.
  destruct (Nat.eqb_spec j 0) as [Ej|Ej].
  - rewrite (kron_eq (r + (m - 1)) (idx m i (m - 1))); [ring|].
    unfold idx. lia.
  - rewrite (kron_eq (r - 1) (idx m i (j - 1))); [ring|].
    unfold idx. lia.
Qed.

Lemma east_entry :
  (if (j =? m - 1)%nat then 0 else kron (r + 1) c)
  + (if (j =? m - 1)%nat then kron (r - (m - 1)) c else 0)
  == kron (idx m i (wrap_next m j)) c.
Proof.
  rewrite wrap_next_if by exact Hj.
  destruct (Nat.eqb_spec j (m - 1)) as [Ej|Ej].
  - rewrite (kron_eq (r - (m - 1)) (idx m i 0)); [ring|].
    unfold idx. lia.
  - rewrite (kron_eq (r + 1) (idx m i (j + 1))); [ring|].
    unfold idx. lia.
Qed.

(** The five-point stencil of row [idx(i,j)], before scaling. *)
Lemma stencil_entry :
  band m r c + periodic m r c
  == -4 * kron r c
     + kron (idx m (wrap_prev m i) j) c + kron (idx m (wrap_next m i) j) c
     + kron (idx m i (wrap_prev m j)) c + kron (idx m i (wrap_next m j)) c.
Proof.
  pose proof (row_lt m i j Hi Hj) as Hr.
  rewrite periodic_row. unfold band, in_shape.
  destruct (Nat.ltb_spec r (m ^ 2)); [|simpl in *; lia].
  destruct (Nat.ltb_spec c (m ^ 2)); [|simpl in *; lia].
  cbn [andb diags_entry].
  rewrite diag_centre, diag_west, diag_east, diag_north, diag_south
    by assumption.
  rewrite <- north_entry, <- south_entry, <- west_entry, <- east_entry.
  ring.
Qed.
End RowPeriodic.

Lemma nth_matvec A U r :
  (r < nrows A)%nat ->
  List.nth r (matvec A U) 0
  = Qsum (ncols A) (fun c => entry A r c * List.nth c U 0).
Proof.
  intros Hr. unfold matvec.
  set (f := fun r => Qsum (ncols A) (fun c => entry A r c * List.nth c U 0)).
  change (List.nth r (List.map f (List.seq 0 (nrows A))) 0 = f r).
  rewrite (List.nth_indep _ 0 (f 0%nat))
    by (rewrite List.length_map, List.length_seq; exact Hr).
  rewrite List.map_nth, List.seq_nth by exact Hr. reflexivity.
Qed.

Lemma Qsum_stencil n s g r u d l e :
  (r < n)%nat -> (u < n)%nat -> (d < n)%nat -> (l < n)%nat -> (e < n)%nat ->
  Qsum n (fun c =>
            (-4 * kron r c + kron u c + kron d c + kron l c + kron e c) * s * g c)
  == (g u + g d + g l + g e - 4 * g r) * s.
Proof.
  intros Hr Hu Hd Hl He.
  rewrite (Qsum_ext n _ (fun c =>
     (-4 * s) * (kron r c * g c)
     + (s * (kron u c * g c)
        + (s * (kron d c * g c)
           + (s * (kron l c * g c) + s * (kron e c * g c))))))
    by (intros; ring).
  rewrite !Qsum_plus, !Qsum_scal, !Qsum_kron by assumption. ring.
Qed.

Lemma wrap_prev_lt m i : (0 < m)%nat -> (wrap_prev m i < m)%nat.
Proof. intros Hm. unfold wrap_prev. apply Nat.mod_upper_bound. lia. Qed.

Lemma wrap_next_lt m i : (0 < m)%nat -> (wrap_next m i < m)%nat.
Proof. intros Hm. unfold wrap_next. apply Nat.mod_upper_bound. lia. Qed.

(** For [m >= 2] and [a <> b] the builder returns an operator that applies
    the periodic five-point stencil, divided by the square of the spacing
    [(b-a)/(m+1)] that the builder computes. *)
Lemma laplacian_stencil m a b :
  (2 <= m)%nat -> ~ a == b ->
  exists L,
    five_pt_laplacian_sparse_periodic m a b = Ok L
    /\ nrows L = (m ^ 2)%nat /\ ncols L = (m ^ 2)%nat
    /\ forall U i j, (i < m)%nat -> (j < m)%nat ->
         List.nth (idx m i j) (matvec L U) 0
         == (cell m U (wrap_prev m i) j + cell m U (wrap_next m i) j
             + cell m U i (wrap_prev m j) + cell m U i (wrap_next m j)
             - 4 * cell m U i j)
            * (1 / spacing m a b ^ 2).
Proof.
  intros Hm Hab.
  destruct (builder_entries m a b Hm Hab) as (L & HL & Hr & Hc & He).
  exists L. repeat split; try assumption.
  intros U i j Hi Hj.
  assert (Hn : (m ^ 2 = m * m)%nat) by (simpl; lia).
  rewrite nth_matvec by (rewrite Hr, Hn; apply idx_lt; assumption).
  rewrite Hc, Hn.
  rewrite (Qsum_ext _ _ (fun c =>
     (-4 * kron (idx m i j) c
      + kron (idx m (wrap_prev m i) j) c + kron (idx m (wrap_next m i) j) c
      + kron (idx m i (wrap_prev m j)) c + kron (idx m i (wrap_next m j)) c)
     * (1 / spacing m a b ^ 2) * List.nth c U 0)).
  - unfold cell.
    apply Qsum_stencil; apply idx_lt;
      first [assumption | apply wrap_prev_lt; lia | apply wrap_next_lt; lia].
  - intros c Hcc. rewrite He.
    rewrite (stencil_entry m i j c Hm Hi Hj Hcc). reflexivity.
Qed.

Lemma Qsum_ext_eq n f g : (forall c, f c = g c) -> Qsum n f = Qsum n g.
Proof.
  intros H. induction n as [|n IH]; simpl; [reflexivity|]. now rewrite IH, H.
Qed.

Lemma matvec_same A B U : same_entries A B -> matvec A U = matvec B U.
Proof.
  intros (Hr & Hc & He). unfold matvec. rewrite Hr, Hc.
  apply List.map_ext. intros r. apply Qsum_ext_eq. intros c. now rewrite He.
Qed.

Lemma nnz_row_same A B r : same_entries A B -> nnz_row A r = nnz_row B r.
Proof.
  intros (Hr & Hc & He). unfold nnz_row. rewrite Hc. f_equal.
  apply List.filter_ext. intros c. now rewrite He.
Qed.

Lemma row_sum_same A B r : same_entries A B -> row_sum A r = row_sum B r.
Proof.
  intros (Hr & Hc & He). unfold row_sum. rewrite Hc.
  apply Qsum_ext_eq. intros c. now rewrite He.
Qed.

Lemma builder_op m a b :
  (2 <= m)%nat -> ~ a == b ->
  exists L,
    five_pt_laplacian_sparse_periodic m a b = Ok L
    /\ same_entries L (laplacian_op m a b).
Proof.
  intros Hm Hab.
  destruct (builder_entries m a b Hm Hab) as (L & HL & Hr & Hc & He).
  exists L. split; [exact HL|]. repeat split; assumption.
Qed.

Lemma minus_one_neq_one : ~ -1 == 1.
Proof. discriminate. Qed.

(** C1: on the notebook's own call [five_pt_laplacian_sparse_periodic(4,-1.,1.)]
    the operator applied to the unit impulse at cell (0,0) gives [-25] at that
    cell, while the five-point formula with [h = (b-a)/m] gives [-16]: the
    builder divides by the square of [(b-a)/(m+1)]. *)
Theorem laplacian_spacing_mismatch :
  exists L,
    five_pt_laplacian_sparse_periodic 4 (-1) 1 = Ok L
    /\ List.nth (idx 4 0 0) (matvec L (impulse 16 0)) 0 == - (25)
    /\ stencil_value 4 ((1 - (-1)) / 4) (impulse 16 0) 0 0 == - (16)
    /\ ~ List.nth (idx 4 0 0) (matvec L (impulse 16 0)) 0
         == stencil_value 4 ((1 - (-1)) / 4) (impulse 16 0) 0 0.
Proof.
  destruct (builder_op 4 (-1) 1) as (L & HL & Hsame); [lia|exact minus_one_neq_one|].
  exists L. split; [exact HL|].
  rewrite (matvec_same L _ _ Hsame).
  split; [vm_compute; reflexivity|].
  split; [vm_compute; reflexivity|].
  vm_compute. discriminate.
Qed.

(** ** Rows of the operator: sum and number of nonzero entries *)

Lemma idx_div_mod m r :
  (0 < m)%nat -> (r < m * m)%nat ->
  r = idx m (r / m) (r mod m) /\ (r / m < m)%nat /\ (r mod m < m)%nat.
Proof.
  intros Hm Hr. unfold idx. repeat split.
  - rewrite (Nat.div_mod_eq r m) at 1. lia.
  - apply Nat.Div0.div_lt_upper_bound. exact Hr.
  - apply Nat.mod_upper_bound. lia.
Qed.

Lemma inv_sq_nonzero m a b : ~ a == b -> ~ 1 / spacing m a b ^ 2 == 0.
Proof.
  intros Hab H. pose proof (spacing_nonzero m a b Hab) as Hs.
  assert (Hp : ~ spacing m a b ^ 2 == 0) by (apply Qpower_not_0; exact Hs).
  assert (E : 1 == 1 / spacing m a b ^ 2 * spacing m a b ^ 2) by (field; exact Hs).
  rewrite H in E. revert E. rewrite Qmult_0_l. discriminate.
Qed.

Lemma Qlt_neq a b : a < b -> ~ a == b.
Proof. intros Hlt He. rewrite He in Hlt. exact (Qlt_irrefl _ Hlt). Qed.

Lemma row_sum_zero m a b r :
  (2 <= m)%nat -> (r < m * m)%nat -> row_sum (laplacian_op m a b) r == 0.
Proof.
  intros Hm Hr.
  destruct (idx_div_mod m r ltac:(lia) Hr) as (Er & Hi & Hj).
  set (i := (r / m)%nat) in *. set (j := (r mod m)%nat) in *.
  assert (Hn : (m ^ 2 = m * m)%nat) by (simpl; lia).
  unfold row_sum. cbn [ncols entry laplacian_op]. rewrite Hn.
  rewrite (Qsum_ext _ _ (fun c =>
     (-4 * kron (idx m i j) c
      + kron (idx m (wrap_prev m i) j) c + kron (idx m (wrap_next m i) j) c
      + kron (idx m i (wrap_prev m j)) c + kron (idx m i (wrap_next m j)) c)
     * (1 / spacing m a b ^ 2) * (fun _ => 1) c)).
  - rewrite Qsum_stencil;
      [ring | apply idx_lt ..];
      first [assumption | apply wrap_prev_lt; lia | apply wrap_next_lt; lia].
  - intros c Hc. rewrite Er.
    rewrite (stencil_entry m i j c Hm Hi Hj Hc). ring.
Qed.

Lemma nonzero_iff q : nonzero q = true <-> ~ q == 0.
Proof.
  unfold nonzero. rewrite negb_true_iff. split.
  - intros H E. apply Qeq_bool_iff in E. congruence.
  - intros H. apply Qeq_bool_false. exact H.
Qed.

Lemma stencil_nonzero r u d l e c :
  u <> r -> d <> r -> l <> r -> e <> r ->
  ~ -4 * kron r c + kron u c + kron d c + kron l c + kron e c == 0
  <-> List.In c [r; u; d; l; e].
Proof.
  intros Hu Hd Hl He. unfold kron. cbn [List.In].
  destruct (Nat.eqb_spec c r); destruct (Nat.eqb_spec c u);
    destruct (Nat.eqb_spec c d); destruct (Nat.eqb_spec c l);
    destruct (Nat.eqb_spec c e); try congruence;
    (split; [intros H; try (exfalso; apply H; reflexivity); auto 6
            | intros H E; try discriminate E;
              repeat (destruct H as [H|H]; try congruence)]).
Qed.

Lemma filter_seq_length (p : nat -> bool) n S :
  List.NoDup S ->
  (forall c, List.In c S -> (c < n)%nat) ->
  (forall c, (c < n)%nat -> (p c = true <-> List.In c S)) ->
  List.length (List.filter p (List.seq 0 n)) = List.length S.
Proof.
  intros Hnd Hlt Hp. apply Permutation_length.
  apply Stdlib.Sorting.Permutation.NoDup_Permutation.
  - apply List.NoDup_filter, List.seq_NoDup.
  - exact Hnd.
  - intros c. rewrite List.filter_In, List.in_seq. split.
    + intros [Hc Hpc]. apply Hp; [lia|exact Hpc].
    + intros Hin. pose proof (Hlt c Hin). split; [lia|]. apply Hp; assumption.
Qed.

Lemma wrap_prev_neq m i : (2 <= m)%nat -> (i < m)%nat -> wrap_prev m i <> i.
Proof.
  intros Hm Hi. rewrite wrap_prev_if by exact Hi.
  destruct (Nat.eqb_spec i 0); lia.
Qed.

Lemma wrap_next_neq m i : (2 <= m)%nat -> (i < m)%nat -> wrap_next m i <> i.
Proof.
  intros Hm Hi. rewrite wrap_next_if by exact Hi.
  destruct (Nat.eqb_spec i (m - 1)); lia.
Qed.

Lemma wrap_prev_next_neq m i :
  (3 <= m)%nat -> (i < m)%nat -> wrap_prev m i <> wrap_next m i.
Proof.
  intros Hm Hi. rewrite wrap_prev_if, wrap_next_if by exact Hi.
  destruct (Nat.eqb_spec i 0); destruct (Nat.eqb_spec i (m - 1)); lia.
Qed.

Lemma idx_neq m i j i' j' :
  (j < m)%nat -> (j' < m)%nat -> i <> i' \/ j <> j' -> idx m i j <> idx m i' j'.
Proof.
  intros Hj Hj' Hne E. apply idx_inj in E; [|assumption..]. lia.
Qed.

Lemma neighbourhood_lt m i j c :
  (2 <= m)%nat -> (i < m)%nat -> (j < m)%nat ->
  List.In c (neighbourhood m i j) -> (c < m * m)%nat.
Proof.
  intros Hm Hi Hj Hin. unfold neighbourhood in Hin. cbn [List.In] in Hin.
  pose proof (wrap_prev_lt m i ltac:(lia)). pose proof (wrap_next_lt m i ltac:(lia)).
  pose proof (wrap_prev_lt m j ltac:(lia)). pose proof (wrap_next_lt m j ltac:(lia)).
  repeat (destruct Hin as [<-|Hin]; [apply idx_lt; assumption|]).
  contradiction.
Qed.

Lemma neighbourhood_NoDup m i j :
  (3 <= m)%nat -> (i < m)%nat -> (j < m)%nat -> List.NoDup (neighbourhood m i j).
Proof.
  intros Hm Hi Hj.
  pose proof (wrap_prev_lt m i ltac:(lia)) as Hpi.
  pose proof (wrap_next_lt m i ltac:(lia)) as Hni.
  pose proof (wrap_prev_lt m j ltac:(lia)) as Hpj.
  pose proof (wrap_next_lt m j ltac:(lia)) as Hnj.
  pose proof (wrap_prev_neq m i ltac:(lia) Hi).
  pose proof (wrap_next_neq m i ltac:(lia) Hi).
  pose proof (wrap_prev_neq m j ltac:(lia) Hj).
  pose proof (wrap_next_neq m j ltac:(lia) Hj).
  pose proof (wrap_prev_next_neq m i Hm Hi).
  pose proof (wrap_prev_next_neq m j Hm Hj).
  unfold neighbourhood.
  repeat (apply List.NoDup_cons;
          [cbn [List.In];
           repeat (let E := fresh in
                   intros [E|E]; [apply idx_inj in E; [lia|assumption..]|revert E]);
           intros []|]).
  apply List.NoDup_nil.
Qed.

Lemma nonzero_entry_iff m a b i j c :
  (2 <= m)%nat -> ~ a == b -> (i < m)%nat -> (j < m)%nat -> (c < m * m)%nat ->
  nonzero (entry (laplacian_op m a b) (idx m i j) c) = true
  <-> List.In c (neighbourhood m i j).
Proof.
  intros Hm Hab Hi Hj Hc.
  pose proof (wrap_prev_lt m i ltac:(lia)) as Hpi.
  pose proof (wrap_next_lt m i ltac:(lia)) as Hni.
  pose proof (wrap_prev_lt m j ltac:(lia)) as Hpj.
  pose proof (wrap_next_lt m j ltac:(lia)) as Hnj.
  rewrite nonzero_iff. cbn [entry laplacian_op].
  rewrite (stencil_entry m i j c Hm Hi Hj Hc).
  unfold neighbourhood. rewrite <- stencil_nonzero.
  - split; intros H E.
    + apply H. rewrite E. ring.
    + apply Qmult_integral in E. destruct E as [E|E]; [contradiction|].
      exact (inv_sq_nonzero m a b Hab E).
  - apply idx_neq; [assumption..|]. left. now apply wrap_prev_neq.
  - apply idx_neq; [assumption..|]. left. now apply wrap_next_neq.
  - apply idx_neq; [assumption..|]. right. now apply wrap_prev_neq.
  - apply idx_neq; [assumption..|]. right. now apply wrap_next_neq.
Qed.

Lemma nnz_row_five m a b r :
  (3 <= m)%nat -> ~ a == b -> (r < m * m)%nat ->
  nnz_row (laplacian_op m a b) r = 5%nat.
Proof.
  intros Hm Hab Hr.
  destruct (idx_div_mod m r ltac:(lia) Hr) as (Er & Hi & Hj).
  set (i := (r / m)%nat) in *. set (j := (r mod m)%nat) in *.
  unfold nnz_row. cbn [ncols laplacian_op].
  replace (m ^ 2)%nat with (m * m)%nat by (simpl; lia).
  rewrite (filter_seq_length _ _ (neighbourhood m i j)); [reflexivity|..].
  - now apply neighbourhood_NoDup.
  - intros c. apply neighbourhood_lt; [lia|assumption..].
  - intros c Hc. rewrite Er. apply nonzero_entry_iff; [lia|assumption..].
Qed.

Lemma nnz_row_three a b r :
  ~ a == b -> (r < 4)%nat -> nnz_row (laplacian_op 2 a b) r = 3%nat.
Proof.
  intros Hab Hr.
  destruct (idx_div_mod 2 r ltac:(lia) ltac:(simpl; lia)) as (Er & Hi & Hj).
  set (i := (r / 2)%nat) in *. set (j := (r mod 2)%nat) in *.
  unfold nnz_row. cbn [ncols laplacian_op].
  change (2 ^ 2)%nat with (2 * 2)%nat.
  rewrite (filter_seq_length _ _ (List.nodup Nat.eq_dec (neighbourhood 2 i j))).
  - assert (Hij : (i = 0 \/ i = 1)%nat /\ (j = 0 \/ j = 1)%nat) by lia.
    destruct Hij as [[-> | ->] [-> | ->]]; reflexivity.
  - apply List.NoDup_nodup.
  - intros c Hin. apply List.nodup_In in Hin.
    apply (neighbourhood_lt 2 i j); [lia|assumption..].
  - intros c Hc. rewrite List.nodup_In, Er.
    apply nonzero_entry_iff; [lia|assumption..].
Qed.

Lemma length_matvec A U : List.length (matvec A U) = nrows A.
Proof. unfold matvec. now rewrite List.length_map, List.length_seq. Qed.

Lemma cell_constant m v i j :
  (i < m)%nat -> (j < m)%nat -> cell m (List.repeat v (m ^ 2)) i j = v.
Proof.
  intros Hi Hj. unfold cell. apply List.nth_repeat_lt.
  replace (m ^ 2)%nat with (m * m)%nat by (simpl; lia). now apply idx_lt.
Qed.

(** C2 (amended): for [m >= 2] and [a < b] every row of the operator sums to
    zero and the operator sends every constant grid to the zero vector; a row
    has exactly 5 nonzero entries when [m >= 3], and exactly 3 when [m = 2]
    (the two vertical neighbours coincide, and so do the horizontal ones). *)
Theorem laplacian_rows m a b :
  (2 <= m)%nat -> a < b ->
  exists L,
    five_pt_laplacian_sparse_periodic m a b = Ok L
    /\ (forall r, (r < m ^ 2)%nat ->
          row_sum L r == 0
          /\ ((3 <= m)%nat -> nnz_row L r = 5%nat)
          /\ (m = 2%nat -> nnz_row L r = 3%nat))
    /\ forall v, List.Forall (fun x => x == 0) (matvec L (List.repeat v (m ^ 2))).
Proof.
  intros Hm Hlt. pose proof (Qlt_neq a b Hlt) as Hab.
  destruct (builder_op m a b Hm Hab) as (L & HL & Hsame).
  destruct (laplacian_stencil m a b Hm Hab) as (L' & HL' & Hr & Hc & Hst).
  assert (L' = L) by congruence. subst L'.
  assert (Hn : (m ^ 2 = m * m)%nat) by (simpl; lia).
  exists L. split; [exact HL|]. split.
  - intros r Hlr. rewrite Hn in Hlr.
    rewrite (row_sum_same _ _ r Hsame), (nnz_row_same _ _ r Hsame).
    split; [now apply row_sum_zero|]. split.
    + intros H3. now apply nnz_row_five.
    + intros ->. apply nnz_row_three; [exact Hab|simpl in Hlr; lia].
  - intros v. apply List.Forall_nth. intros r d Hlen.
    rewrite length_matvec, Hr, Hn in Hlen.
    rewrite (List.nth_indep _ d 0) by (rewrite length_matvec, Hr, Hn; exact Hlen).
    destruct (idx_div_mod m r ltac:(lia) Hlen) as (Er & Hi & Hj).
    rewrite Er, Hst by assumption.
    pose proof (wrap_prev_lt m (r / m) ltac:(lia)).
    pose proof (wrap_next_lt m (r / m) ltac:(lia)).
    pose proof (wrap_prev_lt m (r mod m) ltac:(lia)).
    pose proof (wrap_next_lt m (r mod m) ltac:(lia)).
    rewrite !cell_constant by assumption. ring.
Qed.

Lemma laplacian_rows_witness :
  (2 <= 4)%nat /\ -1 < 1 /\
  exists L,
    five_pt_laplacian_sparse_periodic 4 (-1) 1 = Ok L
    /\ (forall r, (r < 4 ^ 2)%nat ->
          row_sum L r == 0
          /\ ((3 <= 4)%nat -> nnz_row L r = 5%nat)
          /\ (4%nat = 2%nat -> nnz_row L r = 3%nat))
    /\ forall v, List.Forall (fun x => x == 0) (matvec L (List.repeat v (4 ^ 2))).
Proof.
  split; [lia|]. split; [reflexivity|].
  apply (laplacian_rows 4 (-1) 1); [lia|reflexivity].
Defined.

(** C2 as stated fails at [m = 2]: a row has 3 nonzero entries, not 5. *)
Lemma laplacian_rows_counterexample :
  ~ (forall m a b, (2 <= m)%nat -> a < b ->
       exists L,
         five_pt_laplacian_sparse_periodic m a b = Ok L
         /\ forall r, (r < m ^ 2)%nat ->
              nnz_row L r = 5%nat /\ row_sum L r == 0).
Proof.
  intros H.
  destruct (H 2%nat (-1) 1 ltac:(lia) ltac:(reflexivity)) as (L & HL & Hrows).
  destruct (builder_op 2 (-1) 1 ltac:(lia) minus_one_neq_one) as (L' & HL' & Hsame).
  assert (L' = L) by congruence. subst L'.
  destruct (Hrows 0%nat ltac:(simpl; lia)) as [H5 _].
  rewrite (nnz_row_same _ _ 0 Hsame) in H5.
  rewrite (nnz_row_three (-1) 1 0 minus_one_neq_one ltac:(lia)) in H5.
  discriminate.
Qed.

(** ** Symmetry *)

Lemma kron_sym t c : kron t c = kron c t.
Proof. unfold kron. now rewrite Nat.eqb_sym. Qed.

Lemma wrap_prev_next m i i' :
  (i < m)%nat -> (i' < m)%nat -> wrap_prev m i = i' <-> wrap_next m i' = i.
Proof.
  intros Hi Hi'. rewrite wrap_prev_if, wrap_next_if by assumption.
  destruct (Nat.eqb_spec i 0); destruct (Nat.eqb_spec i' (m - 1)); lia.
Qed.

Lemma kron_idx m i j i' j' :
  (j < m)%nat -> (j' < m)%nat ->
  kron (idx m i j) (idx m i' j') = if (i' =? i)%nat && (j' =? j)%nat then 1 else 0.
Proof.
  intros Hj Hj'. unfold kron.
  destruct (Nat.eqb_spec (idx m i' j') (idx m i j)) as [E|E].
  - apply idx_inj in E; [|assumption..]. destruct E as [-> ->].
    now rewrite !Nat.eqb_refl.
  - destruct (Nat.eqb_spec i' i) as [->|]; [|reflexivity].
    destruct (Nat.eqb_spec j' j) as [->|]; [|reflexivity]. congruence.
Qed.

Lemma kron_prev_next_row m i j i' j' :
  (i < m)%nat -> (j < m)%nat -> (i' < m)%nat -> (j' < m)%nat ->
  kron (idx m (wrap_prev m i) j) (idx m i' j')
  = kron (idx m (wrap_next m i') j') (idx m i j).
Proof.
  intros Hi Hj Hi' Hj'.
  pose proof (wrap_prev_next m i i' Hi Hi').
  rewrite !kron_idx by assumption.
  destruct (Nat.eqb_spec i' (wrap_prev m i)); destruct (Nat.eqb_spec j' j);
    destruct (Nat.eqb_spec i (wrap_next m i')); destruct (Nat.eqb_spec j j');
    cbn [andb]; try reflexivity; exfalso; lia.
Qed.

Lemma kron_prev_next_col m i j i' j' :
  (i < m)%nat -> (j < m)%nat -> (i' < m)%nat -> (j' < m)%nat ->
  kron (idx m i (wrap_prev m j)) (idx m i' j')
  = kron (idx m i' (wrap_next m j')) (idx m i j).
Proof.
  intros Hi Hj Hi' Hj'.
  assert (Hm : (0 < m)%nat) by lia.
  pose proof (wrap_prev_lt m j Hm). pose proof (wrap_next_lt m j' Hm).
  pose proof (wrap_prev_next m j j' Hj Hj').
  rewrite !kron_idx by assumption.
  destruct (Nat.eqb_spec i' i); destruct (Nat.eqb_spec j' (wrap_prev m j));
    destruct (Nat.eqb_spec i i'); destruct (Nat.eqb_spec j (wrap_next m j'));
    cbn [andb]; try reflexivity; exfalso; lia.
Qed.

Lemma stencil_symmetric m i j i' j' :
  (i < m)%nat -> (j < m)%nat -> (i' < m)%nat -> (j' < m)%nat ->
  -4 * kron (idx m i j) (idx m i' j')
  + kron (idx m (wrap_prev m i) j) (idx m i' j')
  + kron (idx m (wrap_next m i) j) (idx m i' j')
  + kron (idx m i (wrap_prev m j)) (idx m i' j')
  + kron (idx m i (wrap_next m j)) (idx m i' j')
  == -4 * kron (idx m i' j') (idx m i j)
     + kron (idx m (wrap_prev m i') j') (idx m i j)
     + kron (idx m (wrap_next m i') j') (idx m i j)
     + kron (idx m i' (wrap_prev m j')) (idx m i j)
     + kron (idx m i' (wrap_next m j')) (idx m i j).
Proof.
  intros Hi Hj Hi' Hj'.
  rewrite (kron_prev_next_row m i j i' j'), (kron_prev_next_col m i j i' j')
    by assumption.
  rewrite (kron_prev_next_row m i' j' i j), (kron_prev_next_col m i' j' i j)
    by assumption.
  rewrite (kron_sym (idx m i j) (idx m i' j')). ring.
Qed.

Lemma wrapb_sym m i0 k r c : wrapb m i0 k r c = wrapb m i0 k c r.
Proof.
  unfold wrapb. revert i0. induction k as [|k IH]; intros i0; [reflexivity|].
  cbn [List.seq List.existsb]. rewrite IH. f_equal.
  rewrite orb_comm. f_equal; apply andb_comm.
Qed.

Lemma in_shape_sym n r c : in_shape n n r c = in_shape n n c r.
Proof. unfold in_shape. apply andb_comm. Qed.

Lemma in_shape_true n r c :
  in_shape n n r c = true <-> (r < n)%nat /\ (c < n)%nat.
Proof. unfold in_shape. now rewrite andb_true_iff, !Nat.ltb_lt. Qed.

Lemma laplacian_op_symmetric_idx m a b i j i' j' :
  (2 <= m)%nat ->
  (i < m)%nat -> (j < m)%nat -> (i' < m)%nat -> (j' < m)%nat ->
  entry (laplacian_op m a b) (idx m i j) (idx m i' j')
  == entry (laplacian_op m a b) (idx m i' j') (idx m i j).
Proof.
  intros Hm Hi Hj Hi' Hj'. cbn [entry laplacian_op].
  rewrite (stencil_entry m i j (idx m i' j') Hm Hi Hj (idx_lt m i' j' Hi' Hj')).
  rewrite (stencil_entry m i' j' (idx m i j) Hm Hi' Hj' (idx_lt m i j Hi Hj)).
  rewrite stencil_symmetric by assumption. reflexivity.
Qed.

Lemma laplacian_op_symmetric m a b r c :
  (2 <= m)%nat ->
  entry (laplacian_op m a b) r c == entry (laplacian_op m a b) c r.
Proof.
  intros Hm.
  assert (Hn : (m ^ 2 = m * m)%nat) by (simpl; lia).
  destruct (in_shape (m ^ 2) (m ^ 2) r c) eqn:Hs.
  - apply in_shape_true in Hs. rewrite Hn in Hs. destruct Hs as [Hr Hc].
    destruct (idx_div_mod m r ltac:(lia) Hr) as (Er & Hi & Hj).
    destruct (idx_div_mod m c ltac:(lia) Hc) as (Ec & Hi' & Hj').
    rewrite Er, Ec. now apply laplacian_op_symmetric_idx.
  - cbn [entry laplacian_op]. unfold band, periodic. rewrite (wrapb_sym m 0 m r c).
    rewrite <- (in_shape_sym (m ^ 2) r c), Hs. reflexivity.
Qed.

(** C7: for [m >= 2] and [a < b] the operator returned by the builder is
    square and equal to its transpose. *)
Theorem laplacian_symmetric m a b :
  (2 <= m)%nat -> a < b ->
  exists L,
    five_pt_laplacian_sparse_periodic m a b = Ok L /\ mat_eq L (transpose L).
Proof.
  intros Hm Hlt. pose proof (Qlt_neq a b Hlt) as Hab.
  destruct (builder_op m a b Hm Hab) as (L & HL & Hr & Hc & He).
  exists L. split; [exact HL|]. unfold mat_eq, transpose. cbn [nrows ncols entry].
  cbn [nrows ncols laplacian_op] in Hr, Hc.
  repeat split; [congruence..|].
  intros r c. rewrite !He. now apply laplacian_op_symmetric.
Qed.

Lemma laplacian_symmetric_witness :
  (2 <= 4)%nat /\ -1 < 1 /\
  exists L,
    five_pt_laplacian_sparse_periodic 4 (-1) 1 = Ok L /\ mat_eq L (transpose L).
Proof.
  split; [lia|]. split; [reflexivity|].
  apply (laplacian_symmetric 4 (-1) 1); [lia|reflexivity].
Defined.



(** ** The reaction terms *)

Lemma f_origin p : f p 0 0 == 0.
Proof. unfold f. ring. Qed.

Lemma g_value p u v :
  ~ beta p == 0 ->
  g p u v = Ok (beta p * v * (1 + alpha p * tau1 p / beta p * u * v)
               + u * (gamma p + tau2 p * v)).
Proof.
  intros Hb. unfold g, py_div. rewrite Qeq_bool_false by exact Hb. reflexivity.
Qed.

Lemma g_raises p u v : beta p == 0 -> g p u v = Err ZeroDivisionError.
Proof.
  intros Hb. unfold g, py_div.
  assert (E : Qeq_bool (beta p) 0 = true) by (apply Qeq_bool_iff; exact Hb).
  rewrite E. reflexivity.
Qed.

Lemma g_origin p : ~ beta p == 0 -> exists y, g p 0 0 = Ok y /\ y == 0.
Proof.
  intros Hb. rewrite g_value by exact Hb. eexists. split; [reflexivity|]. ring.
Qed.

(** C5: with [beta = 0] the implemented [g] raises [ZeroDivisionError] at the
    origin (it divides by [beta]), while [f] and the additive form of [g]
    vanish there. *)
Theorem g_origin_beta_zero :
  f beta_zero_params 0 0 == 0
  /\ g_additive beta_zero_params 0 0 == 0
  /\ g beta_zero_params 0 0 = Err ZeroDivisionError.
Proof.
  split; [apply f_origin|]. split; [unfold g_additive; ring|].
  apply g_raises. reflexivity.
Qed.

(** C6: whenever [beta <> 0] the implemented [g] returns a value, and that
    value equals the additive form
    [beta*v + alpha*tau1*u*v^2 + u*(gamma + tau2*v)]. *)
Theorem g_matches_additive p u v :
  ~ beta p == 0 -> exists y, g p u v = Ok y /\ y == g_additive p u v.
Proof.
  intros Hb. rewrite g_value by exact Hb. eexists. split; [reflexivity|].
  unfold g_additive. field. exact Hb.
Qed.

Lemma g_matches_additive_witness :
  ~ beta notebook_params == 0
  /\ exists y, g notebook_params (1 # 2) (- (1 # 4)) = Ok y
               /\ y == g_additive notebook_params (1 # 2) (- (1 # 4)).
Proof.
  split; [discriminate|].
  apply (g_matches_additive notebook_params (1 # 2) (- (1 # 4))). discriminate.
Defined.

(** ** The driver and [one_step] *)

Lemma reshape_flat a :
  reshape a [size_of (shape a)]
  = Ok {| buf := buf a; shape := [size_of (shape a)] |}.
Proof.
  unfold reshape. cbn [size_of List.fold_right].
  now rewrite Nat.mul_1_r, Nat.eqb_refl.
Qed.

Lemma pattern_formation_cases G nu nv m T :
  pattern_formation G nu nv m T initial_world
  = match py_div (1 - - (1)) (inject_Z (Z.of_nat m)) with
    | Err e => (Err e, initial_world)
    | Ok h =>
        match five_pt_laplacian_sparse_periodic m (- (1)) 1 with
        | Err e => (Err e, setup_world nu nv m)
        | Ok A =>
            match gl_step_size G h (gl_delta G) with
            | Err e => (Err e, setup_world nu nv m)
            | Ok k =>
                match py_div T k with
                | Err e => (Err e, setup_world nu nv m)
                | Ok q =>
                    time_loop (gl_one_step G) m k A (gl_delta G)
                      (Z.to_nat (py_round q))
                      (VArray (flat 1 m)) (VArray (flat 3 m)) 0 0
                      (setup_world nu nv m)
                end
            end
        end
    end.
Proof.
  unfold pattern_formation.
  destruct (py_div (1 - - (1)) (inject_Z (Z.of_nat m))) as [h|e]; [|reflexivity].
  unfold setup_world, initial_data, flat.
  cbv beta iota zeta delta
    [mbind mret M_bind M_ret lift randn halved new_array with_store alloc plot
     initial_world mem plots steps next buf shape fst snd].
  rewrite !reshape_flat. cbv beta iota zeta delta [buf shape].
  destruct (five_pt_laplacian_sparse_periodic m (- (1)) 1) as [A|e]; [|reflexivity].
  destruct (gl_step_size G h (gl_delta G)) as [k|e]; [|reflexivity].
  destruct (py_div T k) as [q|e]; reflexivity.
Qed.

Lemma load_global_u_new p A0 :
  load_global (notebook_globals p A0) "u_new" = Err (NameError "u_new").
Proof. reflexivity. Qed.

Lemma forward_euler_one_step_raises p A0 u v k A d D1 D2 st :
  ForwardEuler.one_step (notebook_globals p A0) u v k A d D1 D2 st
  = (Err (NameError "u_new"), st).
Proof. reflexivity. Qed.

Lemma imex_one_step_raises p A0 u v k A d D1 D2 st :
  ImexSplit.one_step (notebook_globals p A0) u v k A d D1 D2 st
  = (Err (NameError "u_new"), st).
Proof. reflexivity. Qed.

Lemma time_loop_raises s m k A d n u v t np w e :
  (forall st, s u v k A d (1 # 2) 1 st = (Err e, st)) ->
  time_loop s m k A d (S n) u v t np w = (Err e, w).
Proof.
  intros H. destruct w as [st pl sn]. cbn [time_loop].
  cbv beta iota zeta delta [mbind M_bind with_store mem plots steps].
  rewrite H. reflexivity.
Qed.

Lemma setup_world_steps nu nv m : steps (setup_world nu nv m) = 0%nat.
Proof. reflexivity. Qed.

Lemma setup_world_plots nu nv m : List.length (plots (setup_world nu nv m)) = 1%nat.
Proof. reflexivity. Qed.

Lemma py_div_ok x y : ~ y == 0 -> py_div x y = Ok (x / y).
Proof. intros H. unfold py_div. now rewrite Qeq_bool_false. Qed.

Lemma inject_nat_nonzero m : (1 <= m)%nat -> ~ inject_Z (Z.of_nat m) == 0.
Proof. intros Hm. unfold Qeq. simpl. lia. Qed.

(** C3: with the notebook's globals, both definitions of [one_step] raise
    [NameError] on every input (the names [u_new], [v_new] are bound
    nowhere).  A run of [pattern_formation] with either of them completes no
    step; whenever at least one step is scheduled, the run stops with that
    error at its first call of [one_step], having drawn only the initial
    plot. *)
Theorem one_step_unimplemented p A0 gl nu nv m T u v k A d D1 D2 st :
  gl_one_step gl = ForwardEuler.one_step (notebook_globals p A0)
  \/ gl_one_step gl = ImexSplit.one_step (notebook_globals p A0) ->
  ForwardEuler.one_step (notebook_globals p A0) u v k A d D1 D2 st
  = (Err (NameError "u_new"), st)
  /\ ImexSplit.one_step (notebook_globals p A0) u v k A d D1 D2 st
     = (Err (NameError "u_new"), st)
  /\ steps (snd (pattern_formation gl nu nv m T initial_world)) = 0%nat
  /\ forall n,
       (2 <= m)%nat -> planned_steps gl m T = Ok (S n) ->
       pattern_formation gl nu nv m T initial_world
       = (Err (NameError "u_new"), setup_world nu nv m).
Proof.
  intros Hs.
  assert (Hraise : forall n A1 k1 u1 v1 t np w,
            time_loop (gl_one_step gl) m k1 A1 (gl_delta gl) (S n) u1 v1 t np w
            = (Err (NameError "u_new"), w)).
  { intros. apply time_loop_raises. intros st0.
    destruct Hs as [-> | ->]; reflexivity. }
  split; [reflexivity|]. split; [reflexivity|]. split.
  - rewrite pattern_formation_cases.
    destruct (py_div (1 - - (1)) (inject_Z (Z.of_nat m))) as [h|e]; [|reflexivity].
    destruct (five_pt_laplacian_sparse_periodic m (- (1)) 1) as [L|e]; [|reflexivity].
    destruct (gl_step_size gl h (gl_delta gl)) as [k0|e]; [|reflexivity].
    destruct (py_div T k0) as [q|e]; [|reflexivity].
    destruct (Z.to_nat (py_round q)) as [|n]; [reflexivity|].
    rewrite Hraise. reflexivity.
  - intros n Hm HN.
    rewrite pattern_formation_cases. unfold planned_steps in HN.
    destruct (py_div (1 - - (1)) (inject_Z (Z.of_nat m))) as [h|e];
      [|discriminate HN].
    cbn [mbind result_bind] in HN.
    destruct (builder_entries m (- (1)) 1 Hm minus_one_neq_one) as (L & HL & _).
    rewrite HL.
    destruct (gl_step_size gl h (gl_delta gl)) as [k0|e]; [|discriminate HN].
    cbn [mbind result_bind] in HN.
    destruct (py_div T k0) as [q|e]; [|discriminate HN].
    cbn [mbind result_bind] in HN. injection HN as HN. rewrite HN.
    apply Hraise.
Qed.

Lemma one_step_unimplemented_witness :
  (gl_one_step unimplemented_globals
   = ForwardEuler.one_step (notebook_globals notebook_params empty_matrix)
   \/ gl_one_step unimplemented_globals
      = ImexSplit.one_step (notebook_globals notebook_params empty_matrix))
  /\ steps (snd (pattern_formation unimplemented_globals test_noise test_noise
                   10 1000 initial_world)) = 0%nat
  /\ planned_steps unimplemented_globals 10 1000 = Ok 263%nat
  /\ pattern_formation unimplemented_globals test_noise test_noise 10 1000
       initial_world
     = (Err (NameError "u_new"), setup_world test_noise test_noise 10).
Proof.
  pose proof (one_step_unimplemented notebook_params empty_matrix
                unimplemented_globals test_noise test_noise
                10 1000 (VFloat 0) (VFloat 0) 0 empty_matrix 0 0 0
                {| cells := ∅; next := 0 |} (or_introl eq_refl)) as H.
  split; [left; reflexivity|].
  split; [exact (proj1 (proj2 (proj2 H)))|].
  split; [vm_compute; reflexivity|].
  apply (proj2 (proj2 (proj2 H)) 262%nat); [lia|vm_compute; reflexivity].
Defined.

(** ** Step size and number of steps *)

Lemma is_grid_flat b m : is_grid m (VArray (flat b m)).
Proof.
  exists (flat b m). split; [reflexivity|].
  unfold flat. cbn [shape size_of List.fold_right]. lia.
Qed.

Lemma py_reshape_grid m x :
  is_grid m x ->
  exists a, x = VArray a
            /\ py_reshape x [m; m] = Ok {| buf := buf a; shape := [m; m] |}.
Proof.
  intros (a & -> & Hsz). exists a. split; [reflexivity|].
  unfold py_reshape, reshape. now rewrite Hsz, Nat.eqb_refl.
Qed.

Lemma time_loop_total s m k A d :
  total_stepper m s ->
  forall n u v t np w,
    is_grid m u -> is_grid m v ->
    exists w',
      time_loop s m k A d n u v t np w = (Ok tt, w')
      /\ steps w' = (steps w + n)%nat.
Proof.
  intros Hs. induction n as [|n IH]; intros u v t np w Hu Hv.
  - exists w. split; [reflexivity|lia].
  - destruct w as [st pl sn].
    destruct (Hs u v k A d (1 # 2) 1 st Hu Hv) as (u' & v' & st' & Hstep & Hu' & Hv').
    cbn [time_loop].
    cbv beta iota zeta delta [mbind M_bind with_store tick]. cbn [mem plots steps].
    rewrite Hstep. cbn [fst snd mem plots steps].
    destruct (Qgt_bool (t + k) np).
    + destruct (py_reshape_grid m u' Hu') as (a & Ea & Hre).
      cbv beta iota zeta delta [lift]. rewrite Hre.
      cbv beta iota zeta delta [plot]. cbn [mem plots steps].
      match goal with
      | |- context [time_loop s m k A d n u' v' ?t' ?np' ?w1] =>
          destruct (IH u' v' t' np' w1 Hu' Hv') as (w' & Hrun & Hsteps)
      end.
      exists w'. split; [exact Hrun|]. rewrite Hsteps. cbn [steps]. lia.
    + match goal with
      | |- context [time_loop s m k A d n u' v' ?t' ?np' ?w1] =>
          destruct (IH u' v' t' np' w1 Hu' Hv') as (w' & Hrun & Hsteps)
      end.
      exists w'. split; [exact Hrun|]. rewrite Hsteps. cbn [steps]. lia.
Qed.

Lemma driver_spacing m :
  (1 <= m)%nat ->
  py_div (1 - - (1)) (inject_Z (Z.of_nat m))
  = Ok ((1 - - (1)) / inject_Z (Z.of_nat m)).
Proof. intros Hm. apply py_div_ok, inject_nat_nonzero, Hm. Qed.


Lemma Qpos_nonzero x : 0 < x -> ~ x == 0.
Proof. intros H E. rewrite E in H. exact (Qlt_irrefl _ H). Qed.

Lemma Qdiv_pos x y : 0 < x -> 0 < y -> 0 < x / y.
Proof.
  intros Hx Hy. apply Qlt_shift_div_l; [exact Hy|]. now rewrite Qmult_0_l.
Qed.





Lemma run_total gl nu nv m T k :
  (2 <= m)%nat ->
  total_stepper m (gl_one_step gl) ->
  gl_step_size gl (grid_h m) (gl_delta gl) = Ok k ->
  ~ k == 0 ->
  exists L w,
    five_pt_laplacian_sparse_periodic m (- (1)) 1 = Ok L
    /\ pattern_formation gl nu nv m T initial_world
       = time_loop (gl_one_step gl) m k L (gl_delta gl)
           (Z.to_nat (py_round (T / k)))
           (VArray (flat 1 m)) (VArray (flat 3 m)) 0 0 (setup_world nu nv m)
    /\ pattern_formation gl nu nv m T initial_world = (Ok tt, w)
    /\ steps w = Z.to_nat (py_round (T / k)).
Proof.
  intros Hm Hs Hk Hk0.
  rewrite pattern_formation_cases, driver_spacing by lia.
  destruct (builder_entries m (- (1)) 1 Hm minus_one_neq_one) as (L & HL & _).
  rewrite HL. fold (grid_h m). rewrite Hk, (py_div_ok T k Hk0).
  destruct (time_loop_total (gl_one_step gl) m k L (gl_delta gl) Hs
              (Z.to_nat (py_round (T / k)))
              (VArray (flat 1 m)) (VArray (flat 3 m)) 0 0 (setup_world nu nv m)
              (is_grid_flat 1 m) (is_grid_flat 3 m)) as (w & Hrun & Hsteps).
  exists L, w. split; [reflexivity|]. split; [reflexivity|].
  split; [exact Hrun|]. rewrite Hsteps, setup_world_steps. lia.
Qed.


Lemma decay_copy_total m : total_stepper m decay_copy.
Proof.
  intros u v k A d D1 D2 st (a & -> & Ha) (b & -> & Hb).
  unfold decay_copy, alloc.
  eexists _, _, _. split; [reflexivity|].
  split; eexists; (split; [reflexivity|]); cbn [shape]; assumption.
Qed.


(** ** Configurations that are not checked *)

Lemma py_round_nonpos x : x <= 0 -> (py_round x <= 0)%Z.
Proof.
  intros Hx. unfold py_round. destruct (Qle_bool 0 x) eqn:E.
  - change 0%Z with (Qfloor (1 # 2)). apply Qfloor_resp_le. lra.
  - assert (H0 : (Qfloor 0 <= Qfloor (- x + (1 # 2)))%Z)
      by (apply Qfloor_resp_le; lra).
    change (Qfloor 0) with 0%Z in H0. lia.
Qed.







(** ** Snapshots and later steps *)

Lemma wf_alloc xs shp st : wf_store st -> wf_store (snd (alloc xs shp st)).
Proof.
  intros Hwf l Hl. cbn [alloc snd cells next] in *.
  destruct (decide (next st = l)) as [<-|Hne]; [lia|].
  rewrite lookup_insert_ne in Hl by exact Hne.
  specialize (Hwf l Hl). lia.
Qed.

Lemma alloc_subseteq xs shp st :
  wf_store st -> cells st ⊆ cells (snd (alloc xs shp st)).
Proof.
  intros Hwf. cbn [alloc snd cells]. apply insert_subseteq.
  destruct (cells st !! next st) eqn:E; [|reflexivity].
  assert (next st < next st)%nat by (apply Hwf; eauto). lia.
Qed.

Lemma alloc_allocated xs shp st :
  is_Some (cells (snd (alloc xs shp st)) !! buf (fst (alloc xs shp st))).
Proof. cbn [alloc fst snd cells buf]. rewrite lookup_insert_eq. eauto. Qed.

Lemma decay_copy_pure : pure_stepper decay_copy.
Proof.
  intros u v k A d D1 D2 st r st' Hwf Hrun. unfold decay_copy in Hrun.
  destruct u as [| a | |]; try (injection Hrun as <- <-; repeat split;
                                [exact Hwf|reflexivity|discriminate]).
  destruct v as [| b | |]; try (injection Hrun as <- <-; repeat split;
                                [exact Hwf|reflexivity|discriminate]).
  set (xs := List.map (Qmult (1 # 2)) (read a st)) in *.
  pose proof (wf_alloc xs (shape a) st Hwf) as Hwf1.
  pose proof (alloc_subseteq xs (shape a) st Hwf) as Hsub1.
  destruct (alloc xs (shape a) st) as [a' st1] eqn:E1. cbn [snd] in *.
  set (ys := List.map (Qmult (1 # 2)) (read b st1)) in *.
  pose proof (wf_alloc ys (shape b) st1 Hwf1) as Hwf2.
  pose proof (alloc_subseteq ys (shape b) st1 Hwf1) as Hsub2.
  pose proof (alloc_allocated xs (shape a) st) as Ha'. rewrite E1 in Ha'.
  cbn [fst snd] in Ha'.
  destruct (alloc ys (shape b) st1) as [b' st2] eqn:E2. cbn [snd] in *.
  injection Hrun as <- <-. split; [exact Hwf2|]. split.
  - etransitivity; eassumption.
  - intros u' v' [= <- <-]. cbn [allocated].
    destruct Ha' as [x Hx]. exists x.
    eapply lookup_weaken; eassumption.
Qed.

Lemma intact_weaken st st' pl :
  cells st ⊆ cells st' ->
  List.Forall (snapshot_intact st) pl -> List.Forall (snapshot_intact st') pl.
Proof.
  intros Hsub. apply List.Forall_impl. intros s Hs. unfold snapshot_intact in *.
  eapply lookup_weaken; eassumption.
Qed.

Lemma time_loop_intact s m k A d :
  pure_stepper s ->
  forall n u v t np w,
    wf_store (mem w) -> snapshots_intact w ->
    snapshots_intact (snd (time_loop s m k A d n u v t np w)).
Proof.
  intros Hs. induction n as [|n IH]; intros u v t np w Hwf Hin; [exact Hin|].
  destruct w as [st pl sn]. unfold snapshots_intact in Hin. cbn [mem plots] in *.
  cbn [time_loop].
  cbv beta iota zeta delta [mbind M_bind with_store tick]. cbn [mem plots steps].
  destruct (s u v k A d (1 # 2) 1 st) as [r st'] eqn:Hstep.
  destruct (Hs u v k A d (1 # 2) 1 st r st' Hwf Hstep) as (Hwf' & Hsub & Halloc).
  pose proof (intact_weaken st st' pl Hsub Hin) as Hin'.
  destruct r as [[u' v']|e]; [|exact Hin'].
  cbn [fst snd mem plots steps].
  destruct (Qgt_bool (t + k) np).
  - cbv beta iota zeta delta [lift].
    destruct (py_reshape u' [m; m]) as [U|e] eqn:HU; [|exact Hin'].
    cbv beta iota zeta delta [plot]. cbn [mem plots steps].
    apply IH; [exact Hwf'|]. unfold snapshots_intact. cbn [mem plots].
    apply List.Forall_app. split; [exact Hin'|].
    constructor; [|constructor]. unfold snapshot_intact. cbn [snap_grid snap_seen].
    specialize (Halloc u' v' eq_refl).
    destruct u' as [| a | |]; try discriminate HU.
    unfold py_reshape, reshape in HU.
    destruct (size_of (shape a) =? size_of [m; m])%nat; [|discriminate HU].
    injection HU as <-. cbn [allocated buf] in *.
    destruct Halloc as [xs Hxs]. unfold read. cbn [buf]. now rewrite Hxs.
  - apply IH; [exact Hwf'|exact Hin'].
Qed.

Lemma wf_setup_world nu nv m : wf_store (mem (setup_world nu nv m)).
Proof.
  intros l [x Hx]. revert Hx. unfold setup_world, initial_data.
  cbv beta iota zeta delta
    [mbind mret M_bind M_ret lift randn halved new_array with_store alloc plot
     initial_world mem plots steps next buf shape fst snd cells].
  intros Hx.
  repeat (apply lookup_insert_Some in Hx as [[<- _]|[_ Hx]]; [lia|]).
  exfalso. exact (lookup_empty_Some _ _ Hx).
Qed.

Lemma intact_setup_world nu nv m : snapshots_intact (setup_world nu nv m).
Proof. repeat constructor. Qed.

(** C10 (amended): the driver hands the display [u.reshape((m,m))], a view on
    the buffer of the array [one_step] returned, not a copy.  The driver
    never writes into a buffer, so when [one_step] leaves the existing
    buffers as they are (it returns new arrays), every plotted array still
    holds the values that were drawn when the run ends. *)
Theorem snapshots_survive gl nu nv m T :
  pure_stepper (gl_one_step gl) ->
  (forall a U, py_reshape (VArray a) [m; m] = Ok U -> buf U = buf a)
  /\ snapshots_intact (snd (pattern_formation gl nu nv m T initial_world)).
Proof.
  intros Hs. split.
  { intros a U HU. unfold py_reshape, reshape in HU.
    destruct (size_of (shape a) =? size_of [m; m])%nat; [|discriminate HU].
    now injection HU as <-. }
  rewrite pattern_formation_cases.
  destruct (py_div (1 - - (1)) (inject_Z (Z.of_nat m))) as [h|e];
    [|constructor].
  pose proof (intact_setup_world nu nv m) as Hin.
  destruct (five_pt_laplacian_sparse_periodic m (- (1)) 1) as [A|e]; [|exact Hin].
  destruct (gl_step_size gl h (gl_delta gl)) as [k|e]; [|exact Hin].
  destruct (py_div T k) as [q|e]; [|exact Hin].
  apply time_loop_intact; [exact Hs|apply wf_setup_world|exact Hin].
Qed.

Lemma snapshots_survive_witness :
  pure_stepper (gl_one_step (euler_globals decay_copy))
  /\ snapshots_intact
       (snd (pattern_formation (euler_globals decay_copy) test_noise test_noise
               2 50 initial_world)).
Proof.
  split; [exact decay_copy_pure|].
  exact (proj2 (snapshots_survive (euler_globals decay_copy)
                  test_noise test_noise 2 50 decay_copy_pure)).
Defined.

(** C10 as stated fails for a [one_step] that updates its arrays in place:
    the array plotted after the first step is a view on the state's buffer,
    and the second step changes its values. *)
Lemma snapshots_counterexample :
  ~ (forall gl nu nv m T,
       snapshots_intact (snd (pattern_formation gl nu nv m T initial_world))).
Proof.
  intros H.
  specialize (H {| gl_delta := 1 # 10; gl_step_size := ForwardEuler.step_size;
                   gl_one_step := decay_in_place |} test_noise test_noise 2%nat 4).
  unfold snapshots_intact in H.
  apply (proj1 (List.Forall_nth _ _)) with (i := 1%nat)
    (d := {| snap_title := None; snap_grid := {| buf := 0; shape := [] |};
             snap_seen := [] |}) in H.
  - vm_compute in H. discriminate H.
  - vm_compute. lia.
Qed.


(* ------------------------------------------------------------------ *)
(** * Further properties of the code *)

(** ** The operator and the bounds of the domain *)

Lemma spacing_swap m a b : spacing m b a ^ 2 == spacing m a b ^ 2.
Proof.
  unfold spacing. simpl. field. unfold Qeq. simpl. lia.
Qed.

Lemma spacing_shift m a b c : spacing m (a + c) (b + c) == spacing m a b.
Proof.
  unfold spacing. field. unfold Qeq. simpl. lia.
Qed.

Lemma Qneq_sym (a b : Q) : ~ a == b -> ~ b == a.
Proof. intros H E. apply H. symmetry. exact E. Qed.

Lemma Qneq_shift (a b c : Q) : ~ a == b -> ~ a + c == b + c.
Proof.
  intros H E. apply H.
  assert (Ea : a == a + c - c) by ring.
  assert (Eb : b == b + c - c) by ring.
  rewrite Ea, Eb, E. reflexivity.
Qed.

(** X1: the operator depends on the bounds only through the width of the
    domain: for [m >= 2] and [a <> b], exchanging the two bounds or moving
    both by the same amount gives an operator with the same entries. *)
Theorem laplacian_width_only m a b c :
  (2 <= m)%nat -> ~ a == b ->
  exists L Ls Lt,
    five_pt_laplacian_sparse_periodic m a b = Ok L
    /\ five_pt_laplacian_sparse_periodic m b a = Ok Ls
    /\ five_pt_laplacian_sparse_periodic m (a + c) (b + c) = Ok Lt
    /\ mat_eq L Ls /\ mat_eq L Lt.
Proof.
  intros Hm Hab.
  destruct (builder_entries m a b Hm Hab) as (L & HL & Hr & Hc & He).
  destruct (builder_entries m b a Hm (Qneq_sym a b Hab))
    as (Ls & HLs & Hrs & Hcs & Hes).
  destruct (builder_entries m (a + c) (b + c) Hm (Qneq_shift a b c Hab))
    as (Lt & HLt & Hrt & Hct & Het).
  exists L, Ls, Lt. repeat split; try assumption; try congruence.
  - intros r k. rewrite He, Hes, spacing_swap. reflexivity.
  - intros r k. rewrite He, Het, spacing_shift. reflexivity.
Qed.

Lemma laplacian_width_only_witness :
  (2 <= 4)%nat /\ ~ - (1) == 1 /\
  exists L Ls Lt,
    five_pt_laplacian_sparse_periodic 4 (- (1)) 1 = Ok L
    /\ five_pt_laplacian_sparse_periodic 4 1 (- (1)) = Ok Ls
    /\ five_pt_laplacian_sparse_periodic 4 (- (1) + 3) (1 + 3) = Ok Lt
    /\ mat_eq L Ls /\ mat_eq L Lt.
Proof.
  split; [lia|]. split; [discriminate|].
  apply (laplacian_width_only 4 (- (1)) 1 3); [lia|discriminate].
Defined.

(** ** Sums over the rows and columns of a symmetric operator *)

Lemma Qsum_swap n p (F : nat -> nat -> Q) :
  Qsum n (fun r => Qsum p (fun c => F r c))
  == Qsum p (fun c => Qsum n (fun r => F r c)).
Proof.
  induction n as [|n IH]; simpl.
  - symmetry. apply Qsum_zero. intros; reflexivity.
  - rewrite IH, <- Qsum_plus. reflexivity.
Qed.

Lemma Qsum_nonneg n f : (forall c, (c < n)%nat -> 0 <= f c) -> 0 <= Qsum n f.
Proof.
  induction n as [|n IH]; intros H; simpl; [apply Qle_refl|].
  assert (H1 : 0 <= Qsum n f) by (apply IH; intros c Hc; apply H; lia).
  assert (H2 : 0 <= f n) by (apply H; lia).
  lra.
Qed.

Lemma total_map_seq (f : nat -> Q) n :
  total (List.map f (List.seq 0 n)) == Qsum n f.
Proof.
  unfold total. induction n as [|n IH]; [reflexivity|].
  rewrite List.seq_S, List.map_app, List.fold_right_app. simpl.
  rewrite <- IH. clear IH.
  generalize (List.map f (List.seq 0 n)). intros l.
  induction l as [|x l IHl]; simpl; [ring|]. rewrite IHl. ring.
Qed.

Section SymmetricOperator.
Variables (n : nat) (E : nat -> nat -> Q) (u : nat -> Q).
Hypothesis Hsym : forall r c, (r < n)%nat -> (c < n)%nat -> E r c == E c r.
Hypothesis Hrow : forall r, (r < n)%nat -> Qsum n (E r) == 0.
Hypothesis Hoff :
  forall r c, (r < n)%nat -> (c < n)%nat -> r <> c -> 0 <= E r c.

Lemma column_sum_zero c : (c < n)%nat -> Qsum n (fun r => E r c) == 0.
Proof.
  intros Hc. rewrite <- (Hrow c Hc). apply Qsum_ext. intros r Hr.
  apply Hsym; assumption.
Qed.

Lemma weighted_rows_zero (w : nat -> Q) :
  Qsum n (fun r => Qsum n (fun c => E r c * w r)) == 0.
Proof.
  apply Qsum_zero. intros r Hr.
  rewrite (Qsum_ext n _ (fun c => w r * E r c)) by (intros; ring).
  rewrite Qsum_scal, (Hrow r Hr). ring.
Qed.

Lemma weighted_columns_zero (w : nat -> Q) :
  Qsum n (fun r => Qsum n (fun c => E r c * w c)) == 0.
Proof.
  rewrite Qsum_swap. apply Qsum_zero. intros c Hc.
  rewrite (Qsum_ext n _ (fun r => w c * E r c)) by (intros; ring).
  rewrite Qsum_scal, (column_sum_zero c Hc). ring.
Qed.

Lemma differences_nonneg :
  0 <= Qsum n (fun r => Qsum n (fun c => E r c * ((u r - u c) * (u r - u c)))).
Proof.
  apply Qsum_nonneg. intros r Hr. apply Qsum_nonneg. intros c Hc.
  destruct (Nat.eq_dec r c) as [->|Hne].
  - assert (E0 : E c c * ((u c - u c) * (u c - u c)) == 0) by ring.
    rewrite E0. apply Qle_refl.
  - apply Qmult_le_0_compat; [apply Hoff; assumption|].
    assert (Hsq : forall x : Q, 0 <= x * x) by (intros; nra).
    apply Hsq.
Qed.

Lemma differences_expand :
  Qsum n (fun r => Qsum n (fun c => E r c * ((u r - u c) * (u r - u c))))
  == - (2) * Qsum n (fun r => u r * Qsum n (fun c => E r c * u c)).
Proof.
  rewrite (Qsum_ext n _ (fun r =>
     Qsum n (fun c => E r c * (u r * u r))
     + (Qsum n (fun c => E r c * (u c * u c))
        + - (2) * (u r * Qsum n (fun c => E r c * u c))))).
  - rewrite !Qsum_plus, Qsum_scal.
    rewrite (weighted_rows_zero (fun r => u r * u r)).
    rewrite (weighted_columns_zero (fun c => u c * u c)). ring.
  - intros r Hr. rewrite <- (Qsum_scal n (u r)), <- (Qsum_scal n (- (2))).
    rewrite <- !Qsum_plus. apply Qsum_ext. intros c Hc. ring.
Qed.

Lemma quadratic_form_nonpos :
  Qsum n (fun r => u r * Qsum n (fun c => E r c * u c)) <= 0.
Proof.
  pose proof differences_nonneg as H. rewrite differences_expand in H. lra.
Qed.
End SymmetricOperator.

(** ** Sign pattern, conservation and definiteness of the operator *)

Lemma kron_nonneg t c : 0 <= kron t c.
Proof. unfold kron. destruct (c =? t)%nat; discriminate. Qed.

Lemma inv_sq_nonneg m a b : 0 <= 1 / spacing m a b ^ 2.
Proof.
  assert (Hsq : 0 <= spacing m a b ^ 2).
  { assert (E : spacing m a b ^ 2 == spacing m a b * spacing m a b)
      by (simpl; ring).
    rewrite E. nra. }
  unfold Qdiv. rewrite Qmult_1_l. apply Qinv_le_0_compat. exact Hsq.
Qed.

Lemma op_offdiag_nonneg m a b r c :
  (2 <= m)%nat -> (r < m * m)%nat -> (c < m * m)%nat -> r <> c ->
  0 <= entry (laplacian_op m a b) r c.
Proof.
  intros Hm Hr Hc Hne.
  destruct (idx_div_mod m r ltac:(lia) Hr) as (Er & Hi & Hj).
  cbn [entry laplacian_op]. rewrite Er.
  rewrite (stencil_entry m (r / m) (r mod m) c Hm Hi Hj Hc). rewrite <- Er.
  apply Qmult_le_0_compat; [|apply inv_sq_nonneg].
  assert (E0 : kron r c == 0)
    by (unfold kron; destruct (Nat.eqb_spec c r); [congruence|reflexivity]).
  rewrite E0.
  pose proof (kron_nonneg (idx m (wrap_prev m (r / m)) (r mod m)) c).
  pose proof (kron_nonneg (idx m (wrap_next m (r / m)) (r mod m)) c).
  pose proof (kron_nonneg (idx m (r / m) (wrap_prev m (r mod m))) c).
  pose proof (kron_nonneg (idx m (r / m) (wrap_next m (r mod m))) c).
  lra.
Qed.

Lemma kron_other t c : c <> t -> kron t c == 0.
Proof.
  intros H. unfold kron. destruct (Nat.eqb_spec c t); [contradiction|reflexivity].
Qed.

Lemma op_diagonal m a b r :
  (2 <= m)%nat -> (r < m * m)%nat ->
  entry (laplacian_op m a b) r r == - (4) * (1 / spacing m a b ^ 2).
Proof.
  intros Hm Hr.
  destruct (idx_div_mod m r ltac:(lia) Hr) as (Er & Hi & Hj).
  pose proof (wrap_prev_lt m (r / m) ltac:(lia)).
  pose proof (wrap_next_lt m (r / m) ltac:(lia)).
  pose proof (wrap_prev_lt m (r mod m) ltac:(lia)).
  pose proof (wrap_next_lt m (r mod m) ltac:(lia)).
  cbn [entry laplacian_op]. rewrite Er at 1 3.
  rewrite (stencil_entry m (r / m) (r mod m) r Hm Hi Hj Hr).
  rewrite (kron_other (idx m (wrap_prev m (r / m)) (r mod m)) r),
    (kron_other (idx m (wrap_next m (r / m)) (r mod m)) r),
    (kron_other (idx m (r / m) (wrap_prev m (r mod m))) r),
    (kron_other (idx m (r / m) (wrap_next m (r mod m))) r).
  - rewrite <- Er. unfold kron. rewrite Nat.eqb_refl. ring.
  - rewrite Er at 1. apply idx_neq; [assumption..|]. right.
    apply not_eq_sym. now apply wrap_next_neq.
  - rewrite Er at 1. apply idx_neq; [assumption..|]. right.
    apply not_eq_sym. now apply wrap_prev_neq.
  - rewrite Er at 1. apply idx_neq; [assumption..|]. left.
    apply not_eq_sym. now apply wrap_next_neq.
  - rewrite Er at 1. apply idx_neq; [assumption..|]. left.
    apply not_eq_sym. now apply wrap_prev_neq.
Qed.

Lemma op_row_sum m a b r :
  (2 <= m)%nat -> (r < m * m)%nat ->
  Qsum (m * m) (entry (laplacian_op m a b) r) == 0.
Proof.
  intros Hm Hr. pose proof (row_sum_zero m a b r Hm Hr) as H.
  unfold row_sum in H. cbn [ncols laplacian_op] in H.
  replace (m ^ 2)%nat with (m * m)%nat in H by (simpl; lia). exact H.
Qed.

Lemma op_apply m a b U r :
  (r < m * m)%nat ->
  List.nth r (matvec (laplacian_op m a b) U) 0
  = Qsum (m * m) (fun c => entry (laplacian_op m a b) r c * List.nth c U 0).
Proof.
  intros Hr. rewrite nth_matvec.
  - cbn [ncols laplacian_op].
    replace (m ^ 2)%nat with (m * m)%nat by (simpl; lia). reflexivity.
  - cbn [nrows laplacian_op]. simpl. lia.
Qed.

Lemma op_total_zero m a b U :
  (2 <= m)%nat -> total (matvec (laplacian_op m a b) U) == 0.
Proof.
  intros Hm. unfold matvec. rewrite total_map_seq.
  cbn [nrows ncols laplacian_op].
  replace (m ^ 2)%nat with (m * m)%nat by (simpl; lia).
  apply (weighted_columns_zero (m * m) (entry (laplacian_op m a b))).
  - intros r c Hr Hc. now apply laplacian_op_symmetric.
  - intros r Hr. now apply op_row_sum.
Qed.

Lemma op_quad_nonpos m a b U :
  (2 <= m)%nat -> quad (laplacian_op m a b) U <= 0.
Proof.
  intros Hm. unfold quad. cbn [nrows laplacian_op].
  replace (m ^ 2)%nat with (m * m)%nat by (simpl; lia).
  rewrite (Qsum_ext _ _ (fun r =>
     List.nth r U 0
     * Qsum (m * m) (fun c => entry (laplacian_op m a b) r c * List.nth c U 0))).
  - apply (quadratic_form_nonpos (m * m) (entry (laplacian_op m a b))
             (fun r => List.nth r U 0)).
    + intros r c Hr Hc. now apply laplacian_op_symmetric.
    + intros r Hr. now apply op_row_sum.
    + intros r c Hr Hc Hne. now apply op_offdiag_nonneg.
  - intros r Hr. now rewrite op_apply.
Qed.

Lemma quad_same A B U : same_entries A B -> quad A U = quad B U.
Proof.
  intros Hs. unfold quad. rewrite (matvec_same A B U Hs).
  destruct Hs as (-> & _). reflexivity.
Qed.

(** X2: for [m >= 2] and [a <> b] the operator conserves the total: for
    every flattened grid [U] the entries of [L.U] add up to zero. *)
Theorem laplacian_conserves_total m a b U :
  (2 <= m)%nat -> ~ a == b ->
  exists L,
    five_pt_laplacian_sparse_periodic m a b = Ok L
    /\ total (matvec L U) == 0.
Proof.
  intros Hm Hab. destruct (builder_op m a b Hm Hab) as (L & HL & Hs).
  exists L. split; [exact HL|].
  rewrite (matvec_same L _ U Hs). now apply op_total_zero.
Qed.

Lemma laplacian_conserves_total_witness :
  (2 <= 3)%nat /\ ~ - (1) == 1 /\
  exists L,
    five_pt_laplacian_sparse_periodic 3 (- (1)) 1 = Ok L
    /\ total (matvec L [1; 2; 3; 4; 5; 6; 7; 8; 10]) == 0.
Proof.
  split; [lia|]. split; [discriminate|].
  apply (laplacian_conserves_total 3 (- (1)) 1 [1; 2; 3; 4; 5; 6; 7; 8; 10]);
    [lia|discriminate].
Defined.

(** X3: for [m >= 2] and [a <> b] every diagonal entry of the operator is
    [-4/h^2] and every other entry is nonnegative, [h] being the spacing the
    builder computes. *)
Theorem laplacian_sign_pattern m a b :
  (2 <= m)%nat -> ~ a == b ->
  exists L,
    five_pt_laplacian_sparse_periodic m a b = Ok L
    /\ forall r, (r < m ^ 2)%nat ->
         entry L r r == - (4) / spacing m a b ^ 2
         /\ forall c, (c < m ^ 2)%nat -> c <> r -> 0 <= entry L r c.
Proof.
  intros Hm Hab. destruct (builder_op m a b Hm Hab) as (L & HL & Hr & Hc & He).
  exists L. split; [exact HL|]. intros r Hlt.
  replace (m ^ 2)%nat with (m * m)%nat in * by (simpl; lia).
  split.
  - rewrite He, op_diagonal by assumption.
    unfold Qdiv. ring.
  - intros c Hcl Hne. rewrite He. apply op_offdiag_nonneg; auto.
Qed.

Lemma laplacian_sign_pattern_witness :
  (2 <= 4)%nat /\ ~ - (1) == 1 /\
  exists L,
    five_pt_laplacian_sparse_periodic 4 (- (1)) 1 = Ok L
    /\ forall r, (r < 4 ^ 2)%nat ->
         entry L r r == - (4) / spacing 4 (- (1)) 1 ^ 2
         /\ forall c, (c < 4 ^ 2)%nat -> c <> r -> 0 <= entry L r c.
Proof.
  split; [lia|]. split; [discriminate|].
  apply (laplacian_sign_pattern 4 (- (1)) 1); [lia|discriminate].
Defined.

(** X4: for [m >= 2] and [a <> b] the operator is negative semidefinite:
    [U.dot(L.dot(U)) <= 0] for every flattened grid [U]. *)
Theorem laplacian_negative_semidefinite m a b U :
  (2 <= m)%nat -> ~ a == b ->
  exists L,
    five_pt_laplacian_sparse_periodic m a b = Ok L /\ quad L U <= 0.
Proof.
  intros Hm Hab. destruct (builder_op m a b Hm Hab) as (L & HL & Hs).
  exists L. split; [exact HL|].
  rewrite (quad_same L _ U Hs). now apply op_quad_nonpos.
Qed.

Lemma laplacian_negative_semidefinite_witness :
  (2 <= 3)%nat /\ ~ - (1) == 1 /\
  exists L,
    five_pt_laplacian_sparse_periodic 3 (- (1)) 1 = Ok L
    /\ quad L [1; - (2); 3; 4; 5; - (6); 7; 8; 10] <= 0.
Proof.
  split; [lia|]. split; [discriminate|].
  apply (laplacian_negative_semidefinite 3 (- (1)) 1
           [1; - (2); 3; 4; 5; - (6); 7; 8; 10]); [lia|discriminate].
Defined.

(** ** The response to a unit impulse at any cell *)

Lemma nth_impulse n k c : (c < n)%nat -> List.nth c (impulse n k) 0 = kron k c.
Proof.
  intros Hc. unfold impulse.
  rewrite (List.nth_indep _ 0 (kron k 0%nat))
    by (rewrite List.length_map, List.length_seq; exact Hc).
  rewrite List.map_nth, List.seq_nth by exact Hc. reflexivity.
Qed.

Lemma op_apply_impulse m a b r k :
  (r < m * m)%nat -> (k < m * m)%nat ->
  List.nth r (matvec (laplacian_op m a b) (impulse (m * m) k)) 0
  == entry (laplacian_op m a b) r k.
Proof.
  intros Hr Hk. rewrite op_apply by exact Hr.
  rewrite (Qsum_ext _ _ (fun c => kron k c * entry (laplacian_op m a b) r c)).
  - apply Qsum_kron. exact Hk.
  - intros c Hc. rewrite nth_impulse by exact Hc. ring.
Qed.

Lemma nonzero_compat x y : x == y -> nonzero x = nonzero y.
Proof.
  intros E. apply eq_true_iff_eq. rewrite !nonzero_iff. now rewrite E.
Qed.

(** X5: for [m >= 2] and [a <> b], the operator applied to the unit impulse
    at any cell [(i,j)] gives, at every position [r], the entry [L[r, idx(i,j)]];
    it is nonzero exactly at the cell itself and at its periodic neighbours
    [(i-1,j)], [(i+1,j)], [(i,j-1)], [(i,j+1)] (indices modulo [m]). *)
Theorem impulse_response_any_cell m a b i j :
  (2 <= m)%nat -> ~ a == b -> (i < m)%nat -> (j < m)%nat ->
  exists L,
    five_pt_laplacian_sparse_periodic m a b = Ok L
    /\ forall r, (r < m * m)%nat ->
         List.nth r (matvec L (impulse (m * m) (idx m i j))) 0
         == entry L r (idx m i j)
         /\ (nonzero (List.nth r (matvec L (impulse (m * m) (idx m i j))) 0) = true
             <-> List.In r (neighbourhood m i j)).
Proof.
  intros Hm Hab Hi Hj.
  destruct (builder_op m a b Hm Hab) as (L & HL & Hs).
  exists L. split; [exact HL|]. intros r Hr.
  pose proof (idx_lt m i j Hi Hj) as Hk.
  rewrite (matvec_same L _ _ Hs).
  destruct Hs as (_ & _ & He). rewrite He.
  pose proof (op_apply_impulse m a b r (idx m i j) Hr Hk) as Happ.
  split; [exact Happ|].
  rewrite (nonzero_compat _ _ Happ).
  rewrite (nonzero_compat _ _ (laplacian_op_symmetric m a b r (idx m i j) Hm)).
  now apply nonzero_entry_iff.
Qed.

Lemma impulse_response_any_cell_witness :
  (2 <= 5)%nat /\ ~ 0 == 2 /\ (4 < 5)%nat /\ (2 < 5)%nat /\
  exists L,
    five_pt_laplacian_sparse_periodic 5 0 2 = Ok L
    /\ forall r, (r < 5 * 5)%nat ->
         List.nth r (matvec L (impulse (5 * 5) (idx 5 4 2))) 0
         == entry L r (idx 5 4 2)
         /\ (nonzero (List.nth r (matvec L (impulse (5 * 5) (idx 5 4 2))) 0) = true
             <-> List.In r (neighbourhood 5 4 2)).
Proof.
  split; [lia|]. split; [discriminate|]. split; [lia|]. split; [lia|].
  apply (impulse_response_any_cell 5 0 2 4 2); [lia|discriminate|lia|lia].
Defined.

(** ** The checkerboard mode *)

Lemma cell_checker m i j :
  (i < m)%nat -> (j < m)%nat ->
  cell m (checker m) i j = if Nat.even (i + j) then 1 else - (1).
Proof.
  intros Hi Hj. unfold cell, checker.
  pose proof (idx_lt m i j Hi Hj) as Hlt.
  set (f := fun r => if Nat.even (r / m + r mod m) then 1 else - (1)).
  rewrite (List.nth_indep _ 0 (f 0%nat))
    by (rewrite List.length_map, List.length_seq; exact Hlt).
  rewrite List.map_nth, List.seq_nth by exact Hlt. unfold f. cbn [Nat.add].
  unfold idx. now rewrite div_idx, mod_idx.
Qed.

Lemma even_wrap_prev m i :
  Nat.even m = true -> (i < m)%nat ->
  Nat.even (wrap_prev m i) = negb (Nat.even i).
Proof.
  intros Hev Hi. rewrite wrap_prev_if by exact Hi.
  destruct (Nat.eqb_spec i 0) as [->|Hne].
  - destruct m as [|m']; [lia|]. rewrite Nat.sub_1_r. cbn [Nat.pred].
    rewrite Nat.even_succ in Hev. rewrite <- (Nat.negb_odd m'), Hev. reflexivity.
  - destruct i as [|i']; [congruence|]. rewrite Nat.sub_1_r. cbn [Nat.pred].
    rewrite Nat.even_succ, <- (Nat.negb_even i'). now rewrite negb_involutive.
Qed.

Lemma even_wrap_next m i :
  Nat.even m = true -> (i < m)%nat ->
  Nat.even (wrap_next m i) = negb (Nat.even i).
Proof.
  intros Hev Hi. rewrite wrap_next_if by exact Hi.
  destruct (Nat.eqb_spec i (m - 1)) as [->|Hne].
  - destruct m as [|m']; [lia|]. rewrite Nat.sub_1_r. cbn [Nat.pred].
    rewrite Nat.even_succ in Hev. rewrite <- (Nat.negb_odd m'), Hev. reflexivity.
  - rewrite Nat.add_1_r, Nat.even_succ, <- (Nat.negb_even i). reflexivity.
Qed.

(** X6: for even [m >= 2] and [a <> b] the checkerboard grid is an
    eigenvector of the operator with eigenvalue [-8/h^2], [h] being the
    spacing the builder computes. *)
Theorem checkerboard_eigenvector m a b :
  (2 <= m)%nat -> Nat.even m = true -> ~ a == b ->
  exists L,
    five_pt_laplacian_sparse_periodic m a b = Ok L
    /\ forall i j, (i < m)%nat -> (j < m)%nat ->
         List.nth (idx m i j) (matvec L (checker m)) 0
         == - (8) / spacing m a b ^ 2 * cell m (checker m) i j.
Proof.
  intros Hm Hev Hab.
  destruct (laplacian_stencil m a b Hm Hab) as (L & HL & _ & _ & Hst).
  exists L. split; [exact HL|]. intros i j Hi Hj.
  rewrite Hst by assumption.
  pose proof (wrap_prev_lt m i ltac:(lia)). pose proof (wrap_next_lt m i ltac:(lia)).
  pose proof (wrap_prev_lt m j ltac:(lia)). pose proof (wrap_next_lt m j ltac:(lia)).
  rewrite !cell_checker by assumption.
  rewrite !Nat.even_add, even_wrap_prev, !even_wrap_next, even_wrap_prev
    by assumption.
  destruct (Nat.even i); destruct (Nat.even j); cbn [negb Bool.eqb];
    unfold Qdiv; ring.
Qed.

Lemma checkerboard_eigenvector_witness :
  (2 <= 4)%nat /\ Nat.even 4 = true /\ ~ - (1) == 1 /\
  exists L,
    five_pt_laplacian_sparse_periodic 4 (- (1)) 1 = Ok L
    /\ forall i j, (i < 4)%nat -> (j < 4)%nat ->
         List.nth (idx 4 i j) (matvec L (checker 4)) 0
         == - (8) / spacing 4 (- (1)) 1 ^ 2 * cell 4 (checker 4) i j.
Proof.
  split; [lia|]. split; [reflexivity|]. split; [discriminate|].
  apply (checkerboard_eigenvector 4 (- (1)) 1); [lia|reflexivity|discriminate].
Defined.

(** ** More on the reaction terms *)

(** X7: [g] raises [ZeroDivisionError] exactly when [beta = 0], whatever
    [u] and [v] are; otherwise it returns a value. *)
Theorem g_raises_iff p u v :
  (g p u v = Err ZeroDivisionError <-> beta p == 0)
  /\ ((exists y, g p u v = Ok y) <-> ~ beta p == 0).
Proof.
  split; split.
  - intros H. destruct (Qeq_dec (beta p) 0) as [E0|Hne]; [exact E0|].
    rewrite g_value in H by exact Hne. discriminate H.
  - apply g_raises.
  - intros [y Hy] Hb. rewrite (g_raises p u v Hb) in Hy. discriminate.
  - intros Hb. rewrite g_value by exact Hb. eauto.
Qed.

(** X8: whenever [g] returns, the cubic and the bilinear terms of [f] and [g]
    cancel in their sum: [f(u,v) + g(u,v) = (alpha+gamma)*u + (1+beta)*v];
    with [gamma = -alpha], as in every parameter set of the notebook, the sum
    is [(1+beta)*v]. *)
Theorem reaction_sum_linear p u v :
  ~ beta p == 0 ->
  exists y,
    g p u v = Ok y
    /\ f p u v + y == (alpha p + gamma p) * u + (1 + beta p) * v
    /\ (gamma p == - alpha p -> f p u v + y == (1 + beta p) * v).
Proof.
  intros Hb. rewrite g_value by exact Hb. eexists. split; [reflexivity|].
  assert (E : f p u v
              + (beta p * v * (1 + alpha p * tau1 p / beta p * u * v)
                 + u * (gamma p + tau2 p * v))
              == (alpha p + gamma p) * u + (1 + beta p) * v)
    by (unfold f; field; exact Hb).
  split; [exact E|]. intros Hg. rewrite E, Hg. ring.
Qed.

Lemma reaction_sum_linear_witness :
  ~ beta notebook_params == 0 /\
  exists y,
    g notebook_params (1 # 3) (- (2 # 5)) = Ok y
    /\ f notebook_params (1 # 3) (- (2 # 5)) + y
       == (alpha notebook_params + gamma notebook_params) * (1 # 3)
          + (1 + beta notebook_params) * - (2 # 5)
    /\ (gamma notebook_params == - alpha notebook_params ->
        f notebook_params (1 # 3) (- (2 # 5)) + y
        == (1 + beta notebook_params) * - (2 # 5)).
Proof.
  split; [discriminate|].
  apply (reaction_sum_linear notebook_params (1 # 3) (- (2 # 5))). discriminate.
Defined.

(** X9: when [tau2 = 0] (and [beta <> 0]) both reaction terms are odd:
    changing the signs of [u] and [v] changes the signs of [f] and [g]. *)
Theorem reaction_odd p u v :
  tau2 p == 0 -> ~ beta p == 0 ->
  f p (- u) (- v) == - f p u v
  /\ exists y y', g p u v = Ok y /\ g p (- u) (- v) = Ok y' /\ y' == - y.
Proof.
  intros Ht Hb. split.
  - unfold f. rewrite Ht. simpl. ring.
  - rewrite !g_value by exact Hb. eexists _, _.
    split; [reflexivity|]. split; [reflexivity|]. rewrite Ht. field. exact Hb.
Qed.

Lemma reaction_odd_witness :
  tau2 stripes_params == 0 /\ ~ beta stripes_params == 0 /\
  f stripes_params (- (1 # 3)) (- (2 # 5)) == - f stripes_params (1 # 3) (2 # 5)
  /\ exists y y',
       g stripes_params (1 # 3) (2 # 5) = Ok y
       /\ g stripes_params (- (1 # 3)) (- (2 # 5)) = Ok y' /\ y' == - y.
Proof.
  split; [reflexivity|]. split; [discriminate|].
  apply (reaction_odd stripes_params (1 # 3) (2 # 5)); [reflexivity|discriminate].
Defined.

(** ** [one_step] and the global namespace *)


(** ** The two step sizes *)

Lemma Qdiv_pos_iff b c : 0 < c -> (0 < b / c <-> 0 < b).
Proof.
  intros Hc. split.
  - intros H. assert (E : b == b / c * c) by (field; lra).
    rewrite E. rewrite <- (Qmult_0_l c). apply Qmult_lt_compat_r; assumption.
  - intros H. now apply Qdiv_pos.
Qed.

Lemma Qdiv_nonneg_iff b c : 0 < c -> (0 <= b / c <-> 0 <= b).
Proof.
  intros Hc. split.
  - intros H. assert (E : b == b / c * c) by (field; lra).
    rewrite E. apply Qmult_le_0_compat; lra.
  - intros H. apply Qle_shift_div_l; [exact Hc|]. lra.
Qed.

Lemma inject_nat_pos m : (1 <= m)%nat -> 0 < inject_Z (Z.of_nat m).
Proof. intros Hm. unfold Qlt. simpl. lia. Qed.

Lemma grid_h_value m :
  (1 <= m)%nat -> grid_h m == 2 / inject_Z (Z.of_nat m).
Proof.
  intros Hm. pose proof (inject_nat_pos m Hm). unfold grid_h. field. lra.
Qed.

Lemma spacing_value m :
  spacing m (- (1)) 1 == 2 / (inject_Z (Z.of_nat m) + 1).
Proof.
  unfold spacing. rewrite inject_Z_plus.
  assert (H : 0 <= inject_Z (Z.of_nat m)) by (unfold Qle; simpl; lia).
  change (inject_Z 1) with 1. field. lra.
Qed.

(** X11: for [delta > 0] on a grid of [m >= 1] both step sizes are returned,
    the explicit one is [2*h] times the IMEX one, and so the IMEX step is the
    larger of the two exactly when [m > 4] (that is, [h < 1/2]). *)
Theorem step_size_comparison m d :
  (1 <= m)%nat -> 0 < d ->
  exists ke ki,
    ForwardEuler.step_size (grid_h m) d = Ok ke
    /\ ImexSplit.step_size (grid_h m) d = Ok ki
    /\ ke == 2 * grid_h m * ki
    /\ (ke < ki <-> (4 < m)%nat).
Proof.
  intros Hm Hd. pose proof (inject_nat_pos m Hm) as Hx.
  unfold ForwardEuler.step_size, ImexSplit.step_size.
  rewrite !py_div_ok by lra. eexists _, _.
  split; [reflexivity|]. split; [reflexivity|].
  rewrite (grid_h_value m Hm). set (x := inject_Z (Z.of_nat m)) in *.
  split; [simpl; field; lra|].
  assert (E : 2 / x / (10 * d) - (2 / x) ^ 2 / (5 * d)
              == (x - 4) / (5 * d * (x * x))) by (simpl; field; lra).
  assert (Hc : 0 < 5 * d * (x * x))
    by (repeat apply Qmult_lt_0_compat; lra).
  assert (Hiff : (2 / x) ^ 2 / (5 * d) < 2 / x / (10 * d) <-> 0 < x - 4).
  { rewrite <- (Qdiv_pos_iff (x - 4) _ Hc), <- E. split; intros; lra. }
  rewrite Hiff. unfold x.
  assert (H4 : (4 < m)%nat <-> (4 < Z.of_nat m)%Z) by lia.
  rewrite H4, Zlt_Qlt. change (inject_Z 4) with 4. split; intros; lra.
Qed.

Lemma step_size_comparison_witness :
  (1 <= 10)%nat /\ 0 < 21 # 10000 /\
  exists ke ki,
    ForwardEuler.step_size (grid_h 10) (21 # 10000) = Ok ke
    /\ ImexSplit.step_size (grid_h 10) (21 # 10000) = Ok ki
    /\ ke == 2 * grid_h 10 * ki
    /\ (ke < ki <-> (4 < 10)%nat).
Proof.
  split; [lia|]. split; [reflexivity|].
  apply (step_size_comparison 10 (21 # 10000)); [lia|reflexivity].
Defined.

(** X12: for [delta > 0] the explicit step size meets the bound
    [k <= h^2/(4*kappa)] of the notebook for [kappa = delta*D] with any
    [0 < D <= 1], when [h] is the driver's spacing [(b-a)/m]; measured with
    the spacing [(b-a)/(m+1)] by which the operator is actually scaled, it
    meets the bound for [D = 1] exactly when [m >= 9]. *)
Theorem explicit_step_bound m d :
  (1 <= m)%nat -> 0 < d ->
  exists k,
    ForwardEuler.step_size (grid_h m) d = Ok k
    /\ (forall D, 0 < D -> D <= 1 -> k <= grid_h m ^ 2 / (4 * (d * D)))
    /\ (k <= spacing m (- (1)) 1 ^ 2 / (4 * (d * 1)) <-> (9 <= m)%nat).
Proof.
  intros Hm Hd. pose proof (inject_nat_pos m Hm) as Hx.
  unfold ForwardEuler.step_size. rewrite py_div_ok by lra.
  eexists. split; [reflexivity|].
  rewrite (grid_h_value m Hm), spacing_value.
  set (x := inject_Z (Z.of_nat m)) in *. split.
  - intros D HD0 HD1. rewrite ?(grid_h_value m Hm). fold x.
    assert (E : (2 / x) ^ 2 / (4 * (d * D)) - (2 / x) ^ 2 / (5 * d)
                == (5 - 4 * D) / (5 * d * D * (x * x))) by (simpl; field; lra).
    assert (Hc : 0 < 5 * d * D * (x * x))
      by (repeat apply Qmult_lt_0_compat; lra).
    assert (H0 : 0 <= (5 - 4 * D) / (5 * d * D * (x * x)))
      by (apply Qdiv_nonneg_iff; [exact Hc|lra]).
    rewrite <- E in H0. lra.
  - assert (E : (2 / (x + 1)) ^ 2 / (4 * (d * 1)) - (2 / x) ^ 2 / (5 * d)
                == (5 * (x * x) - 4 * ((x + 1) * (x + 1)))
                   / (5 * d * (x * x) * ((x + 1) * (x + 1))))
      by (simpl; field; lra).
    assert (Hc : 0 < 5 * d * (x * x) * ((x + 1) * (x + 1)))
      by (repeat apply Qmult_lt_0_compat; lra).
    assert (Hiff : (2 / x) ^ 2 / (5 * d) <= (2 / (x + 1)) ^ 2 / (4 * (d * 1))
                   <-> 0 <= 5 * (x * x) - 4 * ((x + 1) * (x + 1))).
    { rewrite <- (Qdiv_nonneg_iff _ _ Hc), <- E. split; intros; lra. }
    rewrite Hiff. split.
    + intros H. destruct (Nat.le_gt_cases 9 m) as [|Hlt]; [assumption|].
      exfalso.
      assert (H8 : x <= 8).
      { unfold x. change 8 with (inject_Z 8). rewrite <- Zle_Qle. lia. }
      assert (Hp : 0 <= (8 - x) * x) by (apply Qmult_le_0_compat; lra).
      clearbody x. clear - H Hp.
      assert (E1 : 5 * (x * x) - 4 * ((x + 1) * (x + 1))
                   == - ((8 - x) * x) - 4) by ring.
      rewrite E1 in H. lra.
    + intros H9.
      assert (H9' : 9 <= x).
      { unfold x. change 9 with (inject_Z 9). rewrite <- Zle_Qle. lia. }
      assert (Hp : 0 <= (x - 9) * (x + 1)) by (apply Qmult_le_0_compat; lra).
      clearbody x. clear - Hp.
      assert (E1 : 5 * (x * x) - 4 * ((x + 1) * (x + 1))
                   == (x - 9) * (x + 1) + 5) by ring.
      rewrite E1. lra.
Qed.

Lemma explicit_step_bound_witness :
  (1 <= 10)%nat /\ 0 < 21 # 10000 /\
  exists k,
    ForwardEuler.step_size (grid_h 10) (21 # 10000) = Ok k
    /\ (forall D, 0 < D -> D <= 1 -> k <= grid_h 10 ^ 2 / (4 * ((21 # 10000) * D)))
    /\ (k <= spacing 10 (- (1)) 1 ^ 2 / (4 * ((21 # 10000) * 1)) <-> (9 <= 10)%nat).
Proof.
  split; [lia|]. split; [reflexivity|].
  apply (explicit_step_bound 10 (21 # 10000)); [lia|reflexivity].
Defined.

(** ** What a run of the driver draws and counts *)

Lemma inject_nat_succ j :
  inject_Z (Z.of_nat (S j)) == inject_Z (Z.of_nat j) + 1.
Proof. rewrite Nat2Z.inj_succ. unfold Z.succ. now rewrite inject_Z_plus. Qed.

Lemma Qgt_bool_true x y : Qgt_bool x y = true -> y < x.
Proof.
  unfold Qgt_bool. rewrite negb_true_iff. intros H.
  apply Qnot_le_lt. intros Hle. apply Qle_bool_iff in Hle. congruence.
Qed.

Lemma time_loop_trace s m k A d :
  forall n u v t np w,
    exists new,
      plots (snd (time_loop s m k A d n u v t np w)) = plots w ++ new
      /\ (steps w <= steps (snd (time_loop s m k A d n u v t np w)))%nat
      /\ (steps (snd (time_loop s m k A d n u v t np w)) <= steps w + n)%nat
      /\ (fst (time_loop s m k A d n u v t np w) = Ok tt ->
          steps (snd (time_loop s m k A d n u v t np w)) = (steps w + n)%nat)
      /\ forall p sn,
           List.nth_error new p = Some sn ->
           exists j t',
             (p < j)%nat
             /\ (j <= steps (snd (time_loop s m k A d n u v t np w)) - steps w)%nat
             /\ snap_title sn = Some t'
             /\ t' == t + inject_Z (Z.of_nat j) * k
             /\ np + 5 * inject_Z (Z.of_nat p) < t'.
Proof.
  induction n as [|n IH]; intros u v t np w.
  - exists []. cbn [time_loop mret M_ret fst snd]. rewrite List.app_nil_r.
    repeat split; try lia. intros [|p] sn Hp; discriminate Hp.
  - destruct w as [st pl sn0]. cbn [time_loop].
    cbv beta iota zeta delta [mbind M_bind with_store tick]. cbn [mem plots steps].
    destruct (s u v k A d (1 # 2) 1 st) as [[[u' v']|e] st'].
    2:{ exists []. cbn [fst snd plots steps]. rewrite List.app_nil_r.
        repeat split; try lia; try discriminate.
        intros [|p] sn Hp; discriminate Hp. }
    cbn [fst snd mem plots steps].
    destruct (Qgt_bool (t + k) np) eqn:Hgt.
    + cbv beta iota zeta delta [lift].
      destruct (py_reshape u' [m; m]) as [U|e].
      2:{ exists []. cbn [fst snd plots steps]. rewrite List.app_nil_r.
          repeat split; try lia; try discriminate.
          intros [|p] sn Hp; discriminate Hp. }
      cbv beta iota zeta delta [plot]. cbn [mem plots steps].
      match goal with
      | |- context [time_loop s m k A d n u' v' ?t1 ?np1 ?w1] =>
          destruct (IH u' v' t1 np1 w1) as (new & Hpl & Hlo & Hhi & Hok & Ht);
          set (R := time_loop s m k A d n u' v' t1 np1 w1) in *
      end.
      cbn [plots steps] in Hpl, Hlo, Hhi, Hok, Ht.
      exists ({| snap_title := Some (t + k); snap_grid := U;
                 snap_seen := read U st' |} :: new).
      split; [rewrite Hpl, <- List.app_assoc; reflexivity|].
      split; [lia|]. split; [lia|]. split; [intros H; rewrite (Hok H); lia|].
      intros [|p] sn Hp.
      * injection Hp as <-. exists 1%nat, (t + k). cbn [snap_title].
        split; [lia|]. split; [lia|]. split; [reflexivity|].
        split; [change (inject_Z (Z.of_nat 1)) with 1; ring|].
        apply Qgt_bool_true in Hgt. change (inject_Z (Z.of_nat 0)) with 0. lra.
      * destruct (Ht p sn Hp) as (j & t' & Hpj & Hj & Htitle & Hval & Hth).
        exists (S j), t'. split; [lia|]. split; [lia|]. split; [exact Htitle|].
        rewrite !inject_nat_succ. split; [rewrite Hval; ring|]. lra.
    + match goal with
      | |- context [time_loop s m k A d n u' v' ?t1 ?np1 ?w1] =>
          destruct (IH u' v' t1 np1 w1) as (new & Hpl & Hlo & Hhi & Hok & Ht);
          set (R := time_loop s m k A d n u' v' t1 np1 w1) in *
      end.
      cbn [plots steps] in Hpl, Hlo, Hhi, Hok, Ht.
      exists new. split; [exact Hpl|].
      split; [lia|]. split; [lia|]. split; [intros H; rewrite (Hok H); lia|].
      intros p sn Hp.
      destruct (Ht p sn Hp) as (j & t' & Hpj & Hj & Htitle & Hval & Hth).
      exists (S j), t'. split; [lia|]. split; [lia|]. split; [exact Htitle|].
      rewrite inject_nat_succ. split; [rewrite Hval; ring|exact Hth].
Qed.

Lemma trace_length (new : list snapshot) (bound : nat) :
  (forall p sn, List.nth_error new p = Some sn ->
     exists j : nat, (p < j)%nat /\ (j <= bound)%nat) ->
  (List.length new <= bound)%nat.
Proof.
  intros H. destruct new as [|s0 new'] eqn:E; [cbn; lia|]. rewrite <- E in *.
  assert (Hlen : (List.length new - 1 < List.length new)%nat)
    by (rewrite E; cbn; lia).
  destruct (List.nth_error new (List.length new - 1)) as [sn|] eqn:Hn.
  - destruct (H _ _ Hn) as (j & Hj1 & Hj2). lia.
  - apply List.nth_error_None in Hn. lia.
Qed.

(** X13: whatever [one_step] does, a run whose number [N] of scheduled steps
    is defined completes at most [N] calls of [one_step], completes exactly
    [N] when it returns normally, and draws at most one plot per completed
    call besides the initial one. *)
Theorem driver_counts gl nu nv m T N :
  planned_steps gl m T = Ok N ->
  (steps (snd (pattern_formation gl nu nv m T initial_world)) <= N)%nat
  /\ (fst (pattern_formation gl nu nv m T initial_world) = Ok tt ->
      steps (snd (pattern_formation gl nu nv m T initial_world)) = N)
  /\ (List.length (plots (snd (pattern_formation gl nu nv m T initial_world)))
      <= 1 + steps (snd (pattern_formation gl nu nv m T initial_world)))%nat.
Proof.
  intros HN. rewrite pattern_formation_cases. unfold planned_steps in HN.
  destruct (py_div (1 - - (1)) (inject_Z (Z.of_nat m))) as [h|e];
    [|discriminate HN].
  cbn [mbind result_bind] in HN.
  destruct (gl_step_size gl h (gl_delta gl)) as [k|e]; [|discriminate HN].
  cbn [mbind result_bind] in HN.
  destruct (py_div T k) as [q|e]; [|discriminate HN].
  cbn [mbind result_bind] in HN. injection HN as HN. rewrite HN.
  destruct (five_pt_laplacian_sparse_periodic m (- (1)) 1) as [L|e].
  2:{ cbn [fst snd]. rewrite setup_world_steps, setup_world_plots.
      repeat split; try lia. discriminate. }
  destruct (time_loop_trace (gl_one_step gl) m k L (gl_delta gl) N
              (VArray (flat 1 m)) (VArray (flat 3 m)) 0 0 (setup_world nu nv m))
    as (new & Hpl & Hlo & Hhi & Hok & Ht).
  rewrite setup_world_steps in *. split; [lia|]. split; [intros H; rewrite (Hok H); lia|].
  rewrite Hpl, List.length_app, setup_world_plots.
  assert (Hlen : (List.length new
                  <= steps (snd (time_loop (gl_one_step gl) m k L (gl_delta gl) N
                                   (VArray (flat 1 m)) (VArray (flat 3 m)) 0 0
                                   (setup_world nu nv m))) - 0)%nat).
  { apply trace_length. intros p sn Hp.
    destruct (Ht p sn Hp) as (j & t' & Hpj & Hj & _). exists j. lia. }
  lia.
Qed.

Lemma driver_counts_witness :
  planned_steps (euler_globals decay_in_place) 10 50 = Ok 13%nat
  /\ (steps (snd (pattern_formation (euler_globals decay_in_place)
                    test_noise test_noise 10 50 initial_world)) <= 13)%nat
  /\ (fst (pattern_formation (euler_globals decay_in_place)
             test_noise test_noise 10 50 initial_world) = Ok tt ->
      steps (snd (pattern_formation (euler_globals decay_in_place)
                    test_noise test_noise 10 50 initial_world)) = 13%nat)
  /\ (List.length (plots (snd (pattern_formation (euler_globals decay_in_place)
                                 test_noise test_noise 10 50 initial_world)))
      <= 1 + steps (snd (pattern_formation (euler_globals decay_in_place)
                           test_noise test_noise 10 50 initial_world)))%nat.
Proof.
  split; [vm_compute; reflexivity|].
  apply (driver_counts (euler_globals decay_in_place) test_noise test_noise 10 50 13).
  vm_compute. reflexivity.
Defined.

(** X14: the plots of a run are the initial one followed by those of the
    loop, in the order drawn; the plot number [p] of the loop (counted from
    0) is titled with the time [j*k] of the step [j] after which it was
    drawn, with [p < j], and that time is greater than [5*p]. *)
Theorem driver_plot_times gl nu nv m T k :
  (1 <= m)%nat ->
  gl_step_size gl (grid_h m) (gl_delta gl) = Ok k ->
  ~ k == 0 ->
  exists new,
    plots (snd (pattern_formation gl nu nv m T initial_world))
    = plots (setup_world nu nv m) ++ new
    /\ List.map snap_title (plots (setup_world nu nv m)) = [None]
    /\ forall p sn,
         List.nth_error new p = Some sn ->
         exists j t',
           (p < j)%nat
           /\ (j <= steps (snd (pattern_formation gl nu nv m T initial_world)))%nat
           /\ snap_title sn = Some t'
           /\ t' == inject_Z (Z.of_nat j) * k
           /\ 5 * inject_Z (Z.of_nat p) < t'.
Proof.
  intros Hm Hk Hk0.
  rewrite pattern_formation_cases, driver_spacing by exact Hm.
  fold (grid_h m). rewrite Hk, (py_div_ok T k Hk0).
  destruct (five_pt_laplacian_sparse_periodic m (- (1)) 1) as [L|e].
  2:{ exists []. cbn [fst snd]. rewrite List.app_nil_r.
      split; [reflexivity|]. split; [reflexivity|].
      intros [|p] sn Hp; discriminate Hp. }
  destruct (time_loop_trace (gl_one_step gl) m k L (gl_delta gl)
              (Z.to_nat (py_round (T / k)))
              (VArray (flat 1 m)) (VArray (flat 3 m)) 0 0 (setup_world nu nv m))
    as (new & Hpl & Hlo & Hhi & Hok & Ht).
  exists new. split; [exact Hpl|]. split; [reflexivity|].
  intros p sn Hp. destruct (Ht p sn Hp) as (j & t' & Hpj & Hj & Htitle & Hval & Hth).
  rewrite setup_world_steps in Hj.
  exists j, t'. split; [exact Hpj|]. split; [lia|]. split; [exact Htitle|].
  split; [rewrite Hval; ring|lra].
Qed.

Lemma driver_plot_times_witness :
  (1 <= 10)%nat
  /\ gl_step_size (euler_globals decay_copy) (grid_h 10)
       (gl_delta (euler_globals decay_copy))
     = Ok (grid_h 10 ^ 2 / (5 * (21 # 10000)))
  /\ ~ grid_h 10 ^ 2 / (5 * (21 # 10000)) == 0
  /\ exists new,
       plots (snd (pattern_formation (euler_globals decay_copy)
                     test_noise test_noise 10 50 initial_world))
       = plots (setup_world test_noise test_noise 10) ++ new
       /\ List.map snap_title (plots (setup_world test_noise test_noise 10)) = [None]
       /\ forall p sn,
            List.nth_error new p = Some sn ->
            exists j t',
              (p < j)%nat
              /\ (j <= steps (snd (pattern_formation (euler_globals decay_copy)
                                     test_noise test_noise 10 50 initial_world)))%nat
              /\ snap_title sn = Some t'
              /\ t' == inject_Z (Z.of_nat j) * (grid_h 10 ^ 2 / (5 * (21 # 10000)))
              /\ 5 * inject_Z (Z.of_nat p) < t'.
Proof.
  split; [lia|]. split; [reflexivity|]. split; [discriminate|].
  apply (driver_plot_times (euler_globals decay_copy) test_noise test_noise 10 50);
    [lia|reflexivity|discriminate].
Defined.

(** ** The simulated end time *)

Lemma py_round_near x :
  0 <= x ->
  (0 <= py_round x)%Z
  /\ x - (1 # 2) < inject_Z (py_round x)
  /\ inject_Z (py_round x) <= x + (1 # 2).
Proof.
  intros Hx. unfold py_round.
  assert (E : Qle_bool 0 x = true) by (apply Qle_bool_iff; exact Hx).
  rewrite E.
  pose proof (Qfloor_le (x + (1 # 2))) as Hlo.
  pose proof (Qlt_floor (x + (1 # 2))) as Hhi.
  rewrite inject_Z_plus in Hhi. change (inject_Z 1) with 1 in Hhi.
  split; [|split; lra].
  change 0%Z with (Qfloor 0). apply Qfloor_resp_le. lra.
Qed.

Lemma py_round_zero_iff x : (py_round x <= 0)%Z <-> x < 1 # 2.
Proof.
  split.
  - intros H. apply Qnot_le_lt. intros Hge.
    assert (Hx : 0 <= x) by lra.
    destruct (py_round_near x Hx) as (_ & Hlo & _).
    assert (H1 : 0 < inject_Z (py_round x)) by lra.
    change 0 with (inject_Z 0) in H1. rewrite <- Zlt_Qlt in H1. lia.
  - intros H. destruct (Qlt_le_dec x 0) as [Hneg|Hpos].
    + apply py_round_nonpos. lra.
    + destruct (py_round_near x Hpos) as (_ & _ & Hhi).
      assert (H1 : inject_Z (py_round x) < inject_Z 1)
        by (change (inject_Z 1) with 1; lra).
      rewrite <- Zlt_Qlt in H1. lia.
Qed.

Lemma Qdiv_lt_iff t k c : 0 < k -> (t / k < c <-> t < c * k).
Proof.
  intros Hk. split.
  - intros H. assert (E : t == t / k * k) by (field; lra).
    rewrite E. apply Qmult_lt_compat_r; assumption.
  - intros H. apply Qlt_shift_div_r; assumption.
Qed.

(** X15: with a [one_step] that returns grids, [m >= 2] and a step size
    [k > 0], the driver completes; it takes no step at all exactly when
    [T < k/2], and for [T >= 0] the simulated end time [N*k] lies within
    half a step of [T]: [T - k/2 < N*k <= T + k/2]. *)
Theorem driver_end_time gl nu nv m T k :
  (2 <= m)%nat ->
  total_stepper m (gl_one_step gl) ->
  gl_step_size gl (grid_h m) (gl_delta gl) = Ok k ->
  0 < k ->
  exists w,
    pattern_formation gl nu nv m T initial_world = (Ok tt, w)
    /\ (steps w = 0%nat <-> T < k / 2)
    /\ (0 <= T ->
        T - k / 2 < inject_Z (Z.of_nat (steps w)) * k
        /\ inject_Z (Z.of_nat (steps w)) * k <= T + k / 2).
Proof.
  intros Hm Hs Hk Hk0.
  destruct (run_total gl nu nv m T k Hm Hs Hk (Qpos_nonzero k Hk0))
    as (L & w & _ & _ & Hrun & Hsteps).
  exists w. split; [exact Hrun|]. rewrite Hsteps. split.
  - assert (Hz : Z.to_nat (py_round (T / k)) = 0%nat <-> (py_round (T / k) <= 0)%Z)
      by lia.
    rewrite Hz, py_round_zero_iff, (Qdiv_lt_iff T k (1 # 2) Hk0).
    assert (E : (1 # 2) * k == k / 2) by field. rewrite E. reflexivity.
  - intros HT.
    assert (Hq : 0 <= T / k) by (apply Qle_shift_div_l; [exact Hk0|lra]).
    destruct (py_round_near (T / k) Hq) as (Hnn & Hlo & Hhi).
    rewrite Z2Nat.id by exact Hnn.
    assert (E1 : T - k / 2 == (T / k - (1 # 2)) * k) by (field; lra).
    assert (E2 : T + k / 2 == (T / k + (1 # 2)) * k) by (field; lra).
    rewrite E1, E2. split.
    + apply Qmult_lt_compat_r; assumption.
    + apply Qmult_le_compat_r; [exact Hhi|lra].
Qed.

Lemma driver_end_time_witness :
  (2 <= 10)%nat
  /\ total_stepper 10 (gl_one_step (euler_globals decay_copy))
  /\ 0 < grid_h 10 ^ 2 / (5 * (21 # 10000))
  /\ exists w,
       pattern_formation (euler_globals decay_copy) test_noise test_noise 10 50
         initial_world = (Ok tt, w)
       /\ (steps w = 0%nat <-> 50 < grid_h 10 ^ 2 / (5 * (21 # 10000)) / 2)
       /\ (0 <= 50 ->
           50 - grid_h 10 ^ 2 / (5 * (21 # 10000)) / 2
           < inject_Z (Z.of_nat (steps w)) * (grid_h 10 ^ 2 / (5 * (21 # 10000)))
           /\ inject_Z (Z.of_nat (steps w)) * (grid_h 10 ^ 2 / (5 * (21 # 10000)))
              <= 50 + grid_h 10 ^ 2 / (5 * (21 # 10000)) / 2).
Proof.
  split; [lia|]. split; [apply decay_copy_total|]. split; [reflexivity|].
  apply (driver_end_time (euler_globals decay_copy) test_noise test_noise 10 50
           (grid_h 10 ^ 2 / (5 * (21 # 10000))));
    [lia|apply decay_copy_total|reflexivity|reflexivity].
Defined.

(** ** Runs that stop before the first step *)




(** ** Cyclic shifts of the grid *)

Lemma cell_shift_rows m U i j :
  (i < m)%nat -> (j < m)%nat ->
  cell m (shift_rows m U) i j = cell m U (wrap_next m i) j.
Proof.
  intros Hi Hj. unfold cell at 1. unfold shift_rows.
  pose proof (idx_lt m i j Hi Hj) as Hlt.
  set (fn := fun r => cell m U (wrap_next m (r / m)) (r mod m)).
  rewrite (List.nth_indep _ 0 (fn 0%nat))
    by (rewrite List.length_map, List.length_seq; exact Hlt).
  rewrite List.map_nth, List.seq_nth by exact Hlt. unfold fn. cbn [Nat.add].
  unfold idx. now rewrite div_idx, mod_idx.
Qed.

Lemma cell_shift_cols m U i j :
  (i < m)%nat -> (j < m)%nat ->
  cell m (shift_cols m U) i j = cell m U i (wrap_next m j).
Proof.
  intros Hi Hj. unfold cell at 1. unfold shift_cols.
  pose proof (idx_lt m i j Hi Hj) as Hlt.
  set (fn := fun r => cell m U (r / m) (wrap_next m (r mod m))).
  rewrite (List.nth_indep _ 0 (fn 0%nat))
    by (rewrite List.length_map, List.length_seq; exact Hlt).
  rewrite List.map_nth, List.seq_nth by exact Hlt. unfold fn. cbn [Nat.add].
  unfold idx. now rewrite div_idx, mod_idx.
Qed.

Lemma wrap_next_prev m i : (i < m)%nat -> wrap_next m (wrap_prev m i) = i.
Proof.
  intros Hi. apply (wrap_prev_next m i (wrap_prev m i)); [exact Hi| |reflexivity].
  apply wrap_prev_lt. lia.
Qed.

Lemma wrap_prev_next_id m i : (i < m)%nat -> wrap_prev m (wrap_next m i) = i.
Proof.
  intros Hi. apply (wrap_prev_next m (wrap_next m i) i); [|exact Hi|reflexivity].
  apply wrap_next_lt. lia.
Qed.

(** X17: for [m >= 2] and [a <> b] the operator commutes with the cyclic
    shifts of the grid: applying it to the grid shifted by one row (or by one
    column) gives, at every cell, the value that the operator applied to the
    grid itself has at the next row (or column), indices modulo [m]. *)
Theorem laplacian_commutes_with_shifts m a b U :
  (2 <= m)%nat -> ~ a == b ->
  exists L,
    five_pt_laplacian_sparse_periodic m a b = Ok L
    /\ forall i j, (i < m)%nat -> (j < m)%nat ->
         List.nth (idx m i j) (matvec L (shift_rows m U)) 0
         == List.nth (idx m (wrap_next m i) j) (matvec L U) 0
         /\ List.nth (idx m i j) (matvec L (shift_cols m U)) 0
            == List.nth (idx m i (wrap_next m j)) (matvec L U) 0.
Proof.
  intros Hm Hab.
  destruct (laplacian_stencil m a b Hm Hab) as (L & HL & _ & _ & Hst).
  exists L. split; [exact HL|]. intros i j Hi Hj.
  pose proof (wrap_prev_lt m i ltac:(lia)). pose proof (wrap_next_lt m i ltac:(lia)).
  pose proof (wrap_prev_lt m j ltac:(lia)). pose proof (wrap_next_lt m j ltac:(lia)).
  rewrite !Hst by assumption.
  rewrite !cell_shift_rows, !cell_shift_cols by assumption.
  rewrite !wrap_next_prev, !wrap_prev_next_id by assumption.
  split; reflexivity.
Qed.

Lemma laplacian_commutes_with_shifts_witness :
  (2 <= 3)%nat /\ ~ - (1) == 1 /\
  exists L,
    five_pt_laplacian_sparse_periodic 3 (- (1)) 1 = Ok L
    /\ forall i j, (i < 3)%nat -> (j < 3)%nat ->
         List.nth (idx 3 i j) (matvec L (shift_rows 3 [1; 2; 3; 4; 5; 6; 7; 8; 10])) 0
         == List.nth (idx 3 (wrap_next 3 i) j) (matvec L [1; 2; 3; 4; 5; 6; 7; 8; 10]) 0
         /\ List.nth (idx 3 i j) (matvec L (shift_cols 3 [1; 2; 3; 4; 5; 6; 7; 8; 10])) 0
            == List.nth (idx 3 i (wrap_next 3 j)) (matvec L [1; 2; 3; 4; 5; 6; 7; 8; 10]) 0.
Proof.
  split; [lia|]. split; [discriminate|].
  apply (laplacian_commutes_with_shifts 3 (- (1)) 1 [1; 2; 3; 4; 5; 6; 7; 8; 10]);
    [lia|discriminate].
Defined.
